(** * AI Model Loader: a shallow embedding of [lib/aiModelLoader]

    The class [AIModelLoader] keeps a [Map] from model names to cache entry
    objects.  [loadModel] is an [async] method: it runs synchronously up to
    its first [await], is resumed from the microtask queue, and is resumed a
    second time when the promise returned by the model's load function
    settles.  Entry objects are shared between the map and the suspended
    calls, so they live in a store addressed by position.

    Conventions.  Every method that reads [Date.now()] takes the value read
    as its argument [now].  A load function is taken to return a pending
    promise, as its type [() => Promise<any>] says; the environment settles
    it later.  Times and sizes are integers.  The fields [loadingQueue] and
    [loadingPromises], which no method reads or writes, are left out. *)

From Stdlib Require Import ZArith Lia.
From stdpp Require Import base option list strings.

Local Open Scope string_scope.
Local Open Scope list_scope.
Local Open Scope Z_scope.

(** ** JavaScript values *)

(** [model: any] and the value a load function resolves with. *)
Inductive JsValue :=
  | JsUndefined
  | JsNull
  | JsBool (b : bool)
  | JsNumber (n : Z)
  | JsString (s : string)
  | JsObject (ref : nat).

(** ToBoolean, as used by [entry.model && ...]. *)
Definition truthy (v : JsValue) : bool :=
  match v with
  | JsUndefined | JsNull => false
  | JsBool b => b
  | JsNumber n => negb (n =? 0)
  | JsString s => negb (String.eqb s "")
  | JsObject _ => true
  end.

(** The optional numeric options [maxCacheSize?: number], [cacheTtl?: number]:
    [None] is an absent property. *)
Inductive JsNum :=
  | Num (n : Z)
  | NaN.

(** [o || d] for an optional number [o] and a numeric literal [d]. *)
Definition js_or (o : option JsNum) (d : Z) : Z :=
  match o with
  | Some (Num n) => if n =? 0 then d else n
  | Some NaN => d
  | None => d
  end.

(** The falsy values of type [number | undefined]. *)
Definition falsy (o : option JsNum) : Prop :=
  o = None ∨ o = Some NaN ∨ o = Some (Num 0).

(** What a rejected promise carries: the two [Error]s [loadModel] creates
    itself, or whatever the load function rejected with. *)
Inductive JsError :=
  | NotRegistered (modelName : string)
  | NoValidLoadFunction (modelName : string)
  | Thrown (reason : JsValue).

Inductive Outcome :=
  | Fulfilled (v : JsValue)
  | Rejected (e : JsError).

(** ** Data model *)

Inductive ModelLoadingStatus := IDLE | LOADING | LOADED | ERROR.

Global Instance ModelLoadingStatus_eq_dec : EqDecision ModelLoadingStatus.
Proof. solve_decision. Defined.

(** [AIModelConfig].  A load function is identified by a number; the
    property is [None] when [typeof config.loadModel !== 'function']. *)
Record AIModelConfig := {
  cfg_name : string;
  cfg_loadModel : option nat
}.

(** [ModelCacheEntry]; [loadPromise] is the index of a promise. *)
Record ModelCacheEntry := {
  model : JsValue;
  status : ModelLoadingStatus;
  lastUsed : Z;
  loadPromise : option nat;
  config : AIModelConfig
}.

Definition with_model (v : JsValue) (e : ModelCacheEntry) : ModelCacheEntry :=
  {| model := v; status := status e; lastUsed := lastUsed e;
     loadPromise := loadPromise e; config := config e |}.

Definition with_status (st : ModelLoadingStatus) (e : ModelCacheEntry) : ModelCacheEntry :=
  {| model := model e; status := st; lastUsed := lastUsed e;
     loadPromise := loadPromise e; config := config e |}.

Definition with_lastUsed (t : Z) (e : ModelCacheEntry) : ModelCacheEntry :=
  {| model := model e; status := status e; lastUsed := t;
     loadPromise := loadPromise e; config := config e |}.

Definition with_loadPromise (p : option nat) (e : ModelCacheEntry) : ModelCacheEntry :=
  {| model := model e; status := status e; lastUsed := lastUsed e;
     loadPromise := p; config := config e |}.

(** A promise returned by a load function: the function that made it, what
    it has settled to, and the calls suspended on it by [await]. *)
Record JsPromise := {
  made_by : nat;
  settled : option Outcome;
  waiters : list nat
}.

(** One invocation of [loadModel], by where it stands. *)
Inductive Call :=
  | AwaitSpace (entry : nat) (modelName : string) (inline : option AIModelConfig)
      (** suspended at [await this.ensureCacheSpace()] *)
  | AwaitLoad (entry : nat) (modelName : string) (p : nat)
      (** suspended at [await entry.loadPromise] *)
  | Joined (p : nat)
      (** returned [entry.loadPromise]: settles as that promise does *)
  | Settled (o : Outcome).

(** The loader object together with the part of the JavaScript run time it
    interacts with: the store of entry objects, the promises returned by load
    functions, the [loadModel] calls made so far and the queue of calls
    ready to be resumed. *)
Record Loader := {
  modelCache : list (string * nat);
  objects : list ModelCacheEntry;
  maxCacheSize : Z;
  cacheTtl : Z;
  isInitialized : bool;
  promises : list JsPromise;
  calls : list Call;
  microtasks : list nat
}.

Definition with_objects (o : list ModelCacheEntry) (s : Loader) : Loader :=
  {| modelCache := modelCache s; objects := o; maxCacheSize := maxCacheSize s;
     cacheTtl := cacheTtl s; isInitialized := isInitialized s;
     promises := promises s; calls := calls s; microtasks := microtasks s |}.

Definition with_modelCache (m : list (string * nat)) (s : Loader) : Loader :=
  {| modelCache := m; objects := objects s; maxCacheSize := maxCacheSize s;
     cacheTtl := cacheTtl s; isInitialized := isInitialized s;
     promises := promises s; calls := calls s; microtasks := microtasks s |}.

Definition with_isInitialized (b : bool) (s : Loader) : Loader :=
  {| modelCache := modelCache s; objects := objects s; maxCacheSize := maxCacheSize s;
     cacheTtl := cacheTtl s; isInitialized := b;
     promises := promises s; calls := calls s; microtasks := microtasks s |}.

Definition with_promises (p : list JsPromise) (s : Loader) : Loader :=
  {| modelCache := modelCache s; objects := objects s; maxCacheSize := maxCacheSize s;
     cacheTtl := cacheTtl s; isInitialized := isInitialized s;
     promises := p; calls := calls s; microtasks := microtasks s |}.

Definition with_calls (c : list Call) (s : Loader) : Loader :=
  {| modelCache := modelCache s; objects := objects s; maxCacheSize := maxCacheSize s;
     cacheTtl := cacheTtl s; isInitialized := isInitialized s;
     promises := promises s; calls := c; microtasks := microtasks s |}.

Definition with_microtasks (q : list nat) (s : Loader) : Loader :=
  {| modelCache := modelCache s; objects := objects s; maxCacheSize := maxCacheSize s;
     cacheTtl := cacheTtl s; isInitialized := isInitialized s;
     promises := promises s; calls := calls s; microtasks := q |}.

Definition with_cacheTtl (t : Z) (s : Loader) : Loader :=
  {| modelCache := modelCache s; objects := objects s; maxCacheSize := maxCacheSize s;
     cacheTtl := t; isInitialized := isInitialized s;
     promises := promises s; calls := calls s; microtasks := microtasks s |}.

(** ** The [Map] of the cache: insertion ordered, one binding per key *)

Fixpoint Map_get (m : list (string * nat)) (k : string) : option nat :=
  match m with
  | [] => None
  | (k', a) :: m' => if String.eqb k' k then Some a else Map_get m' k
  end.

Definition Map_has (m : list (string * nat)) (k : string) : bool :=
  match Map_get m k with Some _ => true | None => false end.

Fixpoint Map_set (m : list (string * nat)) (k : string) (a : nat) : list (string * nat) :=
  match m with
  | [] => [(k, a)]
  | (k', a') :: m' =>
      if String.eqb k' k then (k, a) :: m' else (k', a') :: Map_set m' k a
  end.

(** [this.modelCache.get(modelName)]: the entry object and where it is. *)
Definition get_entry (s : Loader) (modelName : string) : option (nat * ModelCacheEntry) :=
  match Map_get (modelCache s) modelName with
  | Some a =>
      match objects s !! a with
      | Some e => Some (a, e)
      | None => None
      end
  | None => None
  end.

(** Assignment to the fields of the entry object at [a]. *)
Definition update_entry (a : nat) (f : ModelCacheEntry → ModelCacheEntry) (s : Loader) : Loader :=
  with_objects (alter f a (objects s)) s.

(** ** The class *)

(** [constructor(options = {})] *)
Record Options := {
  opt_maxCacheSize : option JsNum;
  opt_cacheTtl : option JsNum
}.

Definition new_AIModelLoader (options : Options) : Loader :=
  {| modelCache := [];
     objects := [];
     maxCacheSize := js_or (opt_maxCacheSize options) 5;
     cacheTtl := js_or (opt_cacheTtl options) (30 * 60 * 1000);
     isInitialized := false;
     promises := [];
     calls := [];
     microtasks := [] |}.

Definition initialize (s : Loader) : Loader :=
  if isInitialized s then s else with_isInitialized true s.

(** [registerModel(config)]; [now] is what [Date.now()] returns. *)
Definition registerModel (now : Z) (cfg : AIModelConfig) (s : Loader) : Loader :=
  if Map_has (modelCache s) (cfg_name cfg) then s
  else
    with_modelCache (Map_set (modelCache s) (cfg_name cfg) (length (objects s)))
      (with_objects
         (objects s ++
            [{| model := JsNull; status := IDLE; lastUsed := now;
                loadPromise := None; config := cfg |}]) s).

Definition getModelStatus (s : Loader) (modelName : string) : ModelLoadingStatus :=
  match get_entry s modelName with
  | Some (_, e) => status e
  | None => IDLE
  end.

Definition unloadModel (modelName : string) (s : Loader) : Loader :=
  match get_entry s modelName with
  | Some (a, e) =>
      if bool_decide (status e = LOADED)
      then update_entry a (λ e, with_status IDLE (with_model JsNull e)) s
      else s
  | None => s
  end.

(** [Array.prototype.sort] with the comparator
    [entryA.lastUsed - entryB.lastUsed]: stable, ascending. *)
Fixpoint sort_insert (x : string * ModelCacheEntry) (l : list (string * ModelCacheEntry))
  : list (string * ModelCacheEntry) :=
  match l with
  | [] => [x]
  | y :: l' =>
      if lastUsed (snd x) - lastUsed (snd y) <=? 0 then x :: y :: l'
      else y :: sort_insert x l'
  end.

Definition sort_by_lastUsed (l : list (string * ModelCacheEntry)) : list (string * ModelCacheEntry) :=
  foldr sort_insert [] l.

(** [Array.from(this.modelCache.entries())] *)
Definition cache_entries (s : Loader) : list (string * ModelCacheEntry) :=
  omap (λ '(k, a), match objects s !! a with
                   | Some e => Some (k, e)
                   | None => None
                   end) (modelCache s).

(** The [while] loop of [ensureCacheSpace]; it ends when [entries] is empty
    or the size test fails. *)
Fixpoint evict_loop (entries : list (string * ModelCacheEntry)) (s : Loader) : Loader :=
  match entries with
  | [] => s
  | (modelName, _) :: entries' =>
      if Z.of_nat (length (modelCache s)) >? maxCacheSize s
      then evict_loop entries' (unloadModel modelName s)
      else s
  end.

Definition ensureCacheSpace (s : Loader) : Loader :=
  if Z.of_nat (length (modelCache s)) <=? maxCacheSize s then s
  else
    let entries :=
      sort_by_lastUsed
        (filter (λ x, status (snd x) = LOADED) (cache_entries s)) in
    evict_loop entries s.

(** [cleanupExpiredModels()]: the [for ... of] loop over the map. *)
Fixpoint cleanup_loop (now : Z) (entries : list (string * nat)) (s : Loader) : Loader :=
  match entries with
  | [] => s
  | (modelName, a) :: entries' =>
      cleanup_loop now entries'
        match objects s !! a with
        | Some entry =>
            if bool_decide (status entry = LOADED) && (now - lastUsed entry >? cacheTtl s)
            then unloadModel modelName s
            else s
        | None => s
        end
  end.

Definition cleanupExpiredModels (now : Z) (s : Loader) : Loader :=
  cleanup_loop now (modelCache s) s.

(** [dispose()] *)
Fixpoint dispose_loop (entries : list (string * nat)) (s : Loader) : Loader :=
  match entries with
  | [] => s
  | (modelName, _) :: entries' => dispose_loop entries' (unloadModel modelName s)
  end.

Definition dispose (s : Loader) : Loader :=
  with_isInitialized false (with_modelCache [] (dispose_loop (modelCache s) s)).

(** ** [loadModel], an [async] method *)

(** A call is known by its position in [calls]. *)
Definition push_call (c : Call) (s : Loader) : Loader :=
  with_calls (calls s ++ [c]) s.

Definition set_call (cid : nat) (c : Call) (s : Loader) : Loader :=
  with_calls (<[cid := c]> (calls s)) s.

(** The synchronous part: from the call to the first [await], or to a
    [return]/[throw] before it.  [ensureCacheSpace] has no [await] of its
    own, so its body runs here, and the caller is then suspended on the
    promise it returned.  The clock is read once per call. *)
Definition loadModel (now : Z) (modelName : string) (inline : option AIModelConfig)
    (s : Loader) : Loader :=
  let s1 :=
    match inline with
    | Some cfg =>
        if Map_has (modelCache s) modelName then s else registerModel now cfg s
    | None => s
    end in
  match get_entry s1 modelName with
  | None => push_call (Settled (Rejected (NotRegistered modelName))) s1
  | Some (a, entry) =>
      let s2 := update_entry a (with_lastUsed now) s1 in
      if truthy (model entry) && bool_decide (status entry = LOADED)
      then push_call (Settled (Fulfilled (model entry))) s2
      else
        match status entry, loadPromise entry with
        | LOADING, Some p => push_call (Joined p) s2
        | _, _ =>
            let s3 := ensureCacheSpace (update_entry a (with_status LOADING) s2) in
            with_microtasks (microtasks s3 ++ [length (calls s3)])
              (push_call (AwaitSpace a modelName inline) s3)
        end
  end.

(** The [catch] block followed by [finally]. *)
Definition load_failed (cid a : nat) (err : JsError) (s : Loader) : Loader :=
  set_call cid (Settled (Rejected err))
    (update_entry a (λ e, with_loadPromise None (with_status ERROR e)) s).

(** From [await this.ensureCacheSpace()] to [await entry.loadPromise]: the
    load function is invoked and the promise it returns, pending, is stored
    in the entry. *)
Definition after_space (cid a : nat) (modelName : string) (inline : option AIModelConfig)
    (s : Loader) : Loader :=
  match objects s !! a with
  | Some entry =>
      let modelConfig := match inline with Some cfg => cfg | None => config entry end in
      match cfg_loadModel modelConfig with
      | None => load_failed cid a (NoValidLoadFunction modelName) s
      | Some f =>
          let p := length (promises s) in
          set_call cid (AwaitLoad a modelName p)
            (update_entry a (with_loadPromise (Some p))
               (with_promises
                  (promises s ++ [{| made_by := f; settled := None; waiters := [cid] |}]) s))
      end
  | None => s
  end.

(** From [await entry.loadPromise] to the end of the method. *)
Definition after_load (cid a : nat) (o : Outcome) (s : Loader) : Loader :=
  match o with
  | Fulfilled v =>
      set_call cid (Settled (Fulfilled v))
        (update_entry a
           (λ e, with_loadPromise None (with_status LOADED (with_model v e))) s)
  | Rejected err => load_failed cid a err s
  end.

Definition resume (cid : nat) (s : Loader) : Loader :=
  match calls s !! cid with
  | Some (AwaitSpace a modelName inline) => after_space cid a modelName inline s
  | Some (AwaitLoad a _ p) =>
      match promises s !! p with
      | Some {| settled := Some o |} => after_load cid a o s
      | _ => s
      end
  | _ => s
  end.

(** The microtask queue is run to the end, first in first out. *)
Definition drain (s : Loader) : Loader :=
  foldl (λ s cid, resume cid s) (with_microtasks [] s) (microtasks s).

(** The environment settles the promise a load function returned; the calls
    waiting on it become ready.  Settling a settled promise does nothing. *)
Definition settle (p : nat) (o : Outcome) (s : Loader) : Loader :=
  match promises s !! p with
  | Some {| made_by := f; settled := None; waiters := ws |} =>
      with_microtasks (microtasks s ++ ws)
        (with_promises
           (<[p := {| made_by := f; settled := Some o; waiters := [] |}]> (promises s)) s)
  | _ => s
  end.

(** What the promise returned by call [cid] has settled to, if it has. *)
Definition call_result (s : Loader) (cid : nat) : option Outcome :=
  match calls s !! cid with
  | Some (Settled o) => Some o
  | Some (Joined p) =>
      match promises s !! p with
      | Some pr => settled pr
      | None => None
      end
  | _ => None
  end.

(** How many times load function [f] has been invoked. *)
Definition invocations (f : nat) (s : Loader) : nat :=
  length (filter (λ pr, made_by pr = f) (promises s)).

Definition preloadModel (now : Z) (modelName : string) (s : Loader) : Loader :=
  match get_entry s modelName with
  | Some (_, entry) =>
      if bool_decide (status entry = IDLE) then loadModel now modelName None s else s
  | None => s
  end.

(** ** Runs *)

Inductive Event :=
  | EInitialize
  | ERegister (now : Z) (cfg : AIModelConfig)
  | ELoad (now : Z) (modelName : string) (inline : option AIModelConfig)
  | EPreload (now : Z) (modelName : string)
  | EUnload (modelName : string)
  | ECleanup (now : Z)
  | EDispose
  | ESettle (p : nat) (o : Outcome)
  | EDrain.

Definition step (s : Loader) (ev : Event) : Loader :=
  match ev with
  | EInitialize => initialize s
  | ERegister now cfg => registerModel now cfg s
  | ELoad now modelName inline => loadModel now modelName inline s
  | EPreload now modelName => preloadModel now modelName s
  | EUnload modelName => unloadModel modelName s
  | ECleanup now => cleanupExpiredModels now s
  | EDispose => dispose s
  | ESettle p o => settle p o s
  | EDrain => drain s
  end.

Definition run (s : Loader) (evs : list Event) : Loader := foldl step s evs.

Definition reachable (s : Loader) : Prop :=
  ∃ options evs, s = run (new_AIModelLoader options) evs.

(** A load call awaited to its end: the call, the microtask that invokes
    the load function, the settlement [o] of the promise it returned, and
    the microtask that finishes the call. *)
Definition load_and_settle (now : Z) (modelName : string) (inline : option AIModelConfig)
    (o : Outcome) (s : Loader) : Loader :=
  let s1 := drain (loadModel now modelName inline s) in
  drain (settle (length (promises s)) o s1).

(** ** Derived notions *)

(** What [unloadModel] makes of a [LOADED] entry. *)
Definition unloaded (e : ModelCacheEntry) : ModelCacheEntry :=
  with_status IDLE (with_model JsNull e).

(** [s'] is [s] with some of its [LOADED] entry objects unloaded, and
    nothing else changed. *)
Record unloads (s s' : Loader) : Prop := {
  unloads_rest : s' = with_objects (objects s') s;
  unloads_obj : ∀ b,
    objects s' !! b = objects s !! b ∨
    ∃ e, objects s !! b = Some e ∧ status e = LOADED ∧
         objects s' !! b = Some (unloaded e)
}.

(** Events of the environment and of the scheduler, not of the consumer. *)
Definition background (ev : Event) : bool :=
  match ev with
  | ESettle _ _ | EDrain => true
  | _ => false
  end.

(** The entry is not served from the cache and there is no promise to join. *)
Definition starts_load (e : ModelCacheEntry) : Prop :=
  (truthy (model e) && bool_decide (status e = LOADED) = false) ∧
  (status e = LOADING → loadPromise e = None).

(** The entry of a call that has finished with outcome [o]: the end of the
    [try] block or the [catch] block, then [finally]. *)
Definition finished (o : Outcome) (e : ModelCacheEntry) : ModelCacheEntry :=
  match o with
  | Fulfilled v => with_loadPromise None (with_status LOADED (with_model v e))
  | Rejected _ => with_loadPromise None (with_status ERROR e)
  end.

(** The test of the sweep. *)
Definition expired (now ttl : Z) (e : ModelCacheEntry) : Prop :=
  status e = LOADED ∧ now - lastUsed e > ttl.

Global Instance expired_dec now ttl e : Decision (expired now ttl e).
Proof. unfold expired. apply _. Defined.

(** What the sweep makes of an entry. *)
Definition expire (now ttl : Z) (e : ModelCacheEntry) : ModelCacheEntry :=
  if decide (expired now ttl e) then unloaded e else e.

(** The calls of [cleanupExpiredModels]. *)
Definition is_cleanup (ev : Event) : bool :=
  match ev with ECleanup _ => true | _ => false end.

(** ** States and runs of the scenarios *)

(** The configuration of model [n] with load function [f]. *)
Definition cfg (n : string) (f : nat) : AIModelConfig :=
  {| cfg_name := n; cfg_loadModel := Some f |}.

(** [{ maxCacheSize: k }] and [{}]. *)
Definition capacity (k : Z) : Options :=
  {| opt_maxCacheSize := Some (Num k); opt_cacheTtl := None |}.

Definition no_options : Options :=
  {| opt_maxCacheSize := None; opt_cacheTtl := None |}.

(** Capacity 2; "x" then "y" loaded, each registered by its load call. *)
Definition xy_loaded : Loader :=
  load_and_settle 2 "y" (Some (cfg "y" 1)) (Fulfilled (JsObject 2))
    (load_and_settle 1 "x" (Some (cfg "x" 0)) (Fulfilled (JsObject 1))
       (new_AIModelLoader (capacity 2))).

(** Capacity 2; "x", "y" and "z" registered, nothing loaded. *)
Definition xyz_registered : Loader :=
  run (new_AIModelLoader (capacity 2))
    [ERegister 0 (cfg "x" 0); ERegister 0 (cfg "y" 1); ERegister 0 (cfg "z" 2)].

(** One loader, "a" registered with load function 0. *)
Definition a_registered : Loader :=
  registerModel 0 (cfg "a" 0) (new_AIModelLoader no_options).

(** Capacity 1; "a" and "b" registered at time [t]. *)
Definition ab_registered (t : Z) : Loader :=
  run (new_AIModelLoader (capacity 1)) [ERegister t (cfg "a" 0); ERegister t (cfg "b" 1)].

(** A registered entry holds a resource only when it is [LOADED]. *)
Definition resource_invariant (s : Loader) : Prop :=
  ∀ modelName a e,
    get_entry s modelName = Some (a, e) → model e ≠ JsNull → status e = LOADED.

(** "a" is preloaded and loaded in the same synchronous run; the first
    invocation of the load function is fulfilled, then the second is
    rejected. *)
Definition overlapping_run : list Event :=
  [ERegister 0 (cfg "a" 0); EPreload 1 "a"; ELoad 1 "a" None; EDrain;
   ESettle 0 (Fulfilled (JsObject 1)); EDrain;
   ESettle 1 (Rejected (Thrown (JsString "failed"))); EDrain].

(** "a" loaded at time 1 and "b" at time 50, time to live 60. *)
Definition ab_loaded : Loader :=
  load_and_settle 50 "b" (Some (cfg "b" 1)) (Fulfilled (JsObject 2))
    (load_and_settle 1 "a" (Some (cfg "a" 0)) (Fulfilled (JsObject 1))
       (new_AIModelLoader {| opt_maxCacheSize := None; opt_cacheTtl := Some (Num 60) |})).

(** ** The TensorFlow.js adapter *)

(** [unloadTfjsModel(modelName)] of [lib/tfjsModelAdapter], on the shared
    loader.  [loadModel] is [async]: it returns a promise and throws
    nothing, so the [catch] block is never entered; a promise has no
    [dispose] property, so the [if] is never taken; what is left is the load
    call followed by [unloadModel]. *)
Definition unloadTfjsModel (now : Z) (modelName : string) (s : Loader) : Loader :=
  unloadModel modelName (loadModel now modelName None s).

(** ** Notions for the further properties *)

(** Every entry object of [s] is still there in [s'], with the
    configuration it was registered with. *)
Definition keeps_configs (s s' : Loader) : Prop :=
  ∀ a e, objects s !! a = Some e →
         ∃ e', objects s' !! a = Some e' ∧ config e' = config e.

(** Every binding of the map leads to an entry object, and that object
    holds the configuration of that name. *)
Definition entries_named (s : Loader) : Prop :=
  ∀ n a, (n, a) ∈ modelCache s →
         ∃ e, objects s !! a = Some e ∧ cfg_name (config e) = n.

(** The calls of [dispose]. *)
Definition is_dispose (ev : Event) : bool :=
  match ev with EDispose => true | _ => false end.

(** * Properties *)

(** ** The map *)

Lemma Map_get_elem_of m k a : Map_get m k = Some a → (k, a) ∈ m.
Proof.
  induction m as [|[k' a'] m IH]; simpl; [done|].
  destruct (String.eqb k' k) eqn:E.
  - apply String.eqb_eq in E. intros [= ->]. subst. left.
  - intros H. right. auto.
Qed.

Lemma Map_get_NoDup m k a : NoDup m.*1 → (k, a) ∈ m → Map_get m k = Some a.
Proof.
  induction m as [|[k' a'] m IH]; simpl; intros Hnd Hin.
  - by apply elem_of_nil in Hin.
  - apply NoDup_cons in Hnd as [Hk Hnd].
    apply elem_of_cons in Hin as [[= -> ->]|Hin].
    + by rewrite String.eqb_refl.
    + destruct (String.eqb k' k) eqn:E; [|auto].
      apply String.eqb_eq in E. subst. exfalso. apply Hk.
      apply list_elem_of_fmap. by exists (k, a).
Qed.

Lemma Map_set_fresh m k a : Map_get m k = None → Map_set m k a = m ++ [(k, a)].
Proof.
  induction m as [|[k' a'] m IH]; simpl; [done|].
  destruct (String.eqb k' k); [done|]. intros H. by rewrite IH.
Qed.

Lemma Map_get_None_keys m k : Map_get m k = None → k ∉ m.*1.
Proof.
  induction m as [|[k' a'] m IH]; simpl.
  - intros _. apply not_elem_of_nil.
  - destruct (String.eqb k' k) eqn:E; [done|]. intros H.
    apply String.eqb_neq in E. apply not_elem_of_cons. auto.
Qed.

(** ** Unloading *)

Lemma unloads_refl s : unloads s s.
Proof. split; [by destruct s | by left]. Qed.

Lemma unloads_trans s1 s2 s3 : unloads s1 s2 → unloads s2 s3 → unloads s1 s3.
Proof.
  intros [R1 O1] [R2 O2]. split.
  - rewrite R1 in R2. exact R2.
  - intros b. destruct (O2 b) as [->|(e & He & Hst & H3)]; [apply O1|].
    destruct (O1 b) as [Hb|(e' & _ & _ & H2)].
    + right. exists e. by rewrite <- Hb.
    + rewrite H2 in He. injection He as <-. done.
Qed.

Lemma unloadModel_unloads modelName s : unloads s (unloadModel modelName s).
Proof.
  unfold unloadModel. destruct (get_entry s modelName) as [[a e]|] eqn:G;
    [|apply unloads_refl].
  case_bool_decide as Hst; [|apply unloads_refl].
  unfold get_entry in G. destruct (Map_get _ _) as [a'|]; [|done].
  destruct (objects s !! a') eqn:Ha; [|done]. injection G as -> ->.
  split; [done|]. intros b. simpl. destruct (decide (a = b)) as [->|Hne].
  - right. exists e. by rewrite list_lookup_alter_eq, Ha.
  - left. by apply list_lookup_alter_ne.
Qed.

Create HintDb unloads discriminated.
#[local] Hint Resolve unloads_refl unloadModel_unloads : unloads.

Lemma evict_loop_unloads entries s : unloads s (evict_loop entries s).
Proof.
  revert s. induction entries as [|[k e] l IH]; intros s; simpl.
  - auto with unloads.
  - destruct (_ >? _); eauto using unloads_trans with unloads.
Qed.

Lemma ensureCacheSpace_unloads s : unloads s (ensureCacheSpace s).
Proof.
  unfold ensureCacheSpace.
  destruct (_ <=? _); auto using evict_loop_unloads with unloads.
Qed.

Lemma dispose_loop_unloads entries s : unloads s (dispose_loop entries s).
Proof.
  revert s. induction entries as [|[k a] l IH]; intros s; simpl;
    eauto using unloads_trans with unloads.
Qed.

Lemma cleanup_loop_unloads now entries s : unloads s (cleanup_loop now entries s).
Proof.
  revert s. induction entries as [|[k a] l IH]; intros s; simpl.
  - auto with unloads.
  - eapply unloads_trans; [|apply IH].
    destruct (objects s !! a); [|auto with unloads].
    destruct (_ && _); auto with unloads.
Qed.

#[local] Hint Resolve evict_loop_unloads ensureCacheSpace_unloads
  dispose_loop_unloads cleanup_loop_unloads : unloads.

(** An entry that is not [LOADED] is not touched by unloading. *)
Lemma unloads_keeps s s' b e :
  unloads s s' → objects s !! b = Some e → status e ≠ LOADED →
  objects s' !! b = Some e.
Proof.
  intros [_ O] Hb Hst. destruct (O b) as [->|(e' & He' & Hl & _)]; [done|].
  rewrite Hb in He'. by injection He' as <-.
Qed.

Lemma unloads_modelCache s s' : unloads s s' → modelCache s' = modelCache s.
Proof. intros [-> _]. done. Qed.
Lemma unloads_promises s s' : unloads s s' → promises s' = promises s.
Proof. intros [-> _]. done. Qed.
Lemma unloads_calls s s' : unloads s s' → calls s' = calls s.
Proof. intros [-> _]. done. Qed.
Lemma unloads_microtasks s s' : unloads s s' → microtasks s' = microtasks s.
Proof. intros [-> _]. done. Qed.
Lemma unloads_maxCacheSize s s' : unloads s s' → maxCacheSize s' = maxCacheSize s.
Proof. intros [-> _]. done. Qed.
Lemma unloads_cacheTtl s s' : unloads s s' → cacheTtl s' = cacheTtl s.
Proof. intros [-> _]. done. Qed.

(** ** Operations that leave the map alone *)

Lemma after_space_modelCache cid a n i s :
  modelCache (after_space cid a n i s) = modelCache s.
Proof.
  unfold after_space. destruct (objects s !! a); [|done].
  by destruct (cfg_loadModel _).
Qed.

Lemma after_load_modelCache cid a o s :
  modelCache (after_load cid a o s) = modelCache s.
Proof. by destruct o. Qed.

Lemma resume_modelCache cid s : modelCache (resume cid s) = modelCache s.
Proof.
  unfold resume. destruct (calls s !! cid) as [[a n i|a n p|p|o]|]; try done.
  - apply after_space_modelCache.
  - destruct (promises s !! p) as [[f [o|] ws]|]; try done.
    apply after_load_modelCache.
Qed.

Lemma drain_modelCache s : modelCache (drain s) = modelCache s.
Proof.
  unfold drain. change (modelCache s) with (modelCache (with_microtasks [] s)).
  generalize (with_microtasks [] s). induction (microtasks s) as [|cid q IH];
    intros s0; simpl; [done|].
  by rewrite IH, resume_modelCache.
Qed.

Lemma settle_modelCache p o s : modelCache (settle p o s) = modelCache s.
Proof.
  unfold settle. by destruct (promises s !! p) as [[f [o'|] ws]|].
Qed.

Lemma run_background_modelCache evs s :
  forallb background evs = true → modelCache (run s evs) = modelCache s.
Proof.
  revert s. induction evs as [|ev evs IH]; intros s; simpl; [done|].
  intros [Hev Hevs]%andb_prop. unfold run in IH. rewrite IH by done.
  destruct ev; try discriminate; simpl.
  - apply settle_modelCache.
  - apply drain_modelCache.
Qed.

(** ** The constructor *)

(** C10. Constructing the loader with a falsy [maxCacheSize] or [cacheTtl]
    (absent, [NaN] or [0]) gives the default, 5 and 1,800,000 ms; so no
    options make the capacity or the time to live zero. *)
Theorem falsy_options_fall_back_to_defaults (options : Options) :
  (falsy (opt_maxCacheSize options) → maxCacheSize (new_AIModelLoader options) = 5) ∧
  (falsy (opt_cacheTtl options) → cacheTtl (new_AIModelLoader options) = 1800000) ∧
  maxCacheSize (new_AIModelLoader options) ≠ 0 ∧
  cacheTtl (new_AIModelLoader options) ≠ 0.
Proof.
  destruct options as [m t]. simpl. repeat split.
  - intros [-> | [-> | ->]]; reflexivity.
  - intros [-> | [-> | ->]]; reflexivity.
  - destruct m as [[n|]|]; simpl; try lia. destruct (n =? 0) eqn:E; lia.
  - destruct t as [[n|]|]; simpl; try lia. destruct (n =? 0) eqn:E; lia.
Qed.

Lemma falsy_options_fall_back_to_defaults_witness :
  let zero := {| opt_maxCacheSize := Some (Num 0); opt_cacheTtl := Some (Num 0) |} in
  maxCacheSize (new_AIModelLoader zero) = 5 ∧
  cacheTtl (new_AIModelLoader zero) = 1800000.
Proof.
  intros zero.
  destruct (falsy_options_fall_back_to_defaults zero) as (Hm & Ht & _).
  split; [apply Hm | apply Ht]; right; right; reflexivity.
Defined.

(** ** [dispose] *)

Lemma get_entry_no_map s modelName : modelCache s = [] → get_entry s modelName = None.
Proof. unfold get_entry. by intros ->. Qed.

(** C5. After [dispose()] the map is empty: the status of every name is
    [IDLE], also after the calls still in flight have finished, and
    [loadModel(name)] without an inline configuration is rejected with the
    not-registered error, invoking no load function and scheduling nothing. *)
Theorem dispose_forgets_registrations (s : Loader) (modelName : string) (now : Z) :
  modelCache (dispose s) = modelCache (new_AIModelLoader no_options) ∧
  isInitialized (dispose s) = false ∧
  getModelStatus (dispose s) modelName = IDLE ∧
  (∀ evs, forallb background evs = true →
          getModelStatus (run (dispose s) evs) modelName = IDLE) ∧
  let s' := loadModel now modelName None (dispose s) in
  call_result s' (length (calls (dispose s))) = Some (Rejected (NotRegistered modelName)) ∧
  promises s' = promises (dispose s) ∧
  microtasks s' = microtasks (dispose s) ∧
  getModelStatus s' modelName = IDLE.
Proof.
  assert (Hd : modelCache (dispose s) = []) by reflexivity.
  split; [done|]. split; [done|]. split; [|split].
  - unfold getModelStatus. by rewrite get_entry_no_map.
  - intros evs Hevs. unfold getModelStatus.
    rewrite get_entry_no_map; [done|]. by rewrite run_background_modelCache.
  - unfold loadModel. rewrite (get_entry_no_map _ _ Hd). simpl.
    split; [|done].
    unfold call_result. simpl. by rewrite list_lookup_middle.
Qed.

(** ** Entries of registered names *)

Lemma get_entry_Some s n a e :
  get_entry s n = Some (a, e) ↔
  Map_get (modelCache s) n = Some a ∧ objects s !! a = Some e.
Proof.
  unfold get_entry. split.
  - destruct (Map_get _ _) as [a'|]; [|done].
    destruct (objects s !! a') eqn:E; [|done]. by intros [= <- <-].
  - intros [-> ->]. done.
Qed.

Lemma get_entry_update s n a e f :
  get_entry s n = Some (a, e) → get_entry (update_entry a f s) n = Some (a, f e).
Proof.
  intros [Hm Ho]%get_entry_Some. apply get_entry_Some. split; [done|].
  simpl. by rewrite list_lookup_alter_eq, Ho.
Qed.

(** For a registered name the inline configuration registers nothing. *)
Lemma no_late_registration s n a e now inline :
  get_entry s n = Some (a, e) →
  match inline with
  | Some cfg => if Map_has (modelCache s) n then s else registerModel now cfg s
  | None => s
  end = s.
Proof.
  intros [Hm _]%get_entry_Some. unfold Map_has. rewrite Hm. by destruct inline.
Qed.

Lemma loadModel_hit s n a e now inline :
  get_entry s n = Some (a, e) → status e = LOADED → truthy (model e) = true →
  loadModel now n inline s =
    push_call (Settled (Fulfilled (model e))) (update_entry a (with_lastUsed now) s).
Proof.
  intros G Hst Ht. unfold loadModel.
  rewrite (no_late_registration _ _ _ _ now inline G), G. simpl. rewrite Ht, Hst. done.
Qed.

(** ** Starting a load *)

Lemma loadModel_starts s n a e now inline :
  get_entry s n = Some (a, e) → starts_load e →
  loadModel now n inline s =
    let s3 := ensureCacheSpace
                (update_entry a (with_status LOADING)
                   (update_entry a (with_lastUsed now) s)) in
    with_microtasks (microtasks s3 ++ [length (calls s3)])
      (push_call (AwaitSpace a n inline) s3).
Proof.
  intros G [Hhit Hjoin]. unfold loadModel.
  rewrite (no_late_registration _ _ _ _ now inline G), G. simpl. rewrite Hhit.
  destruct (status e) eqn:Hst; try done.
  by rewrite Hjoin.
Qed.

Lemma started_entry s n a e now :
  get_entry s n = Some (a, e) →
  let s3 := ensureCacheSpace
              (update_entry a (with_status LOADING)
                 (update_entry a (with_lastUsed now) s)) in
  unloads (update_entry a (with_status LOADING) (update_entry a (with_lastUsed now) s)) s3 ∧
  objects s3 !! a = Some (with_status LOADING (with_lastUsed now e)).
Proof.
  intros [Hm Ho]%get_entry_Some s3. split; [apply ensureCacheSpace_unloads|].
  eapply unloads_keeps; [apply ensureCacheSpace_unloads| |done].
  simpl. by rewrite !list_lookup_alter_eq, Ho.
Qed.

Lemma insert_last {A} (l : list A) (x y : A) : <[length l := y]> (l ++ [x]) = l ++ [y].
Proof.
  replace (length l) with (length l + 0)%nat by lia. by rewrite insert_app_r.
Qed.

Lemma drain_single s cid :
  microtasks s = [cid] → drain s = resume cid (with_microtasks [] s).
Proof. unfold drain. by intros ->. Qed.

(** A load that starts, followed by the microtask that invokes the load
    function [f]. *)
Lemma load_then_drain s n a e now inline f :
  get_entry s n = Some (a, e) → starts_load e → microtasks s = [] →
  cfg_loadModel (match inline with Some c => c | None => config e end) = Some f →
  let cid := length (calls s) in
  let p := length (promises s) in
  let s1 := drain (loadModel now n inline s) in
  modelCache s1 = modelCache s ∧
  objects s1 !! a =
    Some (with_loadPromise (Some p) (with_status LOADING (with_lastUsed now e))) ∧
  promises s1 = promises s ++ [{| made_by := f; settled := None; waiters := [cid] |}] ∧
  calls s1 = calls s ++ [AwaitLoad a n p] ∧
  microtasks s1 = [].
Proof.
  intros G Hst Hq Hf cid p s1. subst s1.
  rewrite (loadModel_starts _ _ _ _ _ _ G Hst). cbv zeta.
  destruct (started_entry _ _ _ _ now G) as [Hu Ha].
  set (s3 := ensureCacheSpace _) in *.
  assert (Hmc : modelCache s3 = modelCache s) by by rewrite (unloads_modelCache _ _ Hu).
  assert (Hpr : promises s3 = promises s) by by rewrite (unloads_promises _ _ Hu).
  assert (Hca : calls s3 = calls s) by by rewrite (unloads_calls _ _ Hu).
  assert (Hmi : microtasks s3 = []) by by rewrite (unloads_microtasks _ _ Hu).
  unfold drain. simpl. rewrite Hmi. simpl.
  unfold resume. simpl. rewrite list_lookup_middle by done.
  unfold after_space. simpl. rewrite Ha. simpl. rewrite Hf. simpl.
  rewrite Hmc, Hpr, Hca. fold cid p.
  repeat split.
  - by rewrite list_lookup_alter_eq, Ha.
  - apply insert_last.
Qed.

(** Settling the promise a call waits on, followed by the microtask that
    finishes the call. *)
Lemma settle_then_drain s cid a n p f e o :
  calls s !! cid = Some (AwaitLoad a n p) →
  promises s !! p = Some {| made_by := f; settled := None; waiters := [cid] |} →
  objects s !! a = Some e → microtasks s = [] →
  let s1 := drain (settle p o s) in
  modelCache s1 = modelCache s ∧
  objects s1 !! a = Some (finished o e) ∧
  (∀ b, b ≠ a → objects s1 !! b = objects s !! b) ∧
  promises s1 = <[p := {| made_by := f; settled := Some o; waiters := [] |}]> (promises s) ∧
  calls s1 = <[cid := Settled o]> (calls s) ∧
  microtasks s1 = [].
Proof.
  intros Hc Hp Ha Hq s1. subst s1. unfold settle. rewrite Hp, Hq. simpl.
  unfold drain. simpl.
  unfold resume. simpl. rewrite Hc.
  rewrite list_lookup_insert_eq by (by eapply lookup_lt_Some).
  destruct o as [v|err]; simpl; repeat split.
  - by rewrite list_lookup_alter_eq, Ha.
  - intros b Hb. by apply list_lookup_alter_ne.
  - by rewrite list_lookup_alter_eq, Ha.
  - intros b Hb. by apply list_lookup_alter_ne.
Qed.

Lemma drain_idle s : microtasks s = [] → drain s = s.
Proof. destruct s. simpl. by intros ->. Qed.

Lemma invocations_snoc g s s' pr :
  promises s' = promises s ++ [pr] →
  invocations g s' = (if decide (made_by pr = g) then S (invocations g s) else invocations g s).
Proof.
  unfold invocations. intros ->. rewrite filter_app, length_app.
  rewrite filter_cons, filter_nil. destruct (decide _); simpl; lia.
Qed.

(** ** Cache hits *)

(** C6 (amended). When the entry is [LOADED] and the resource it holds is
    truthy, [loadModel] resolves with that resource, invokes no load
    function, schedules nothing and sets [lastUsed] to the current time,
    leaving the rest of the entry as it was. *)
Theorem cache_hit_returns_cached_resource s modelName a e now inline :
  get_entry s modelName = Some (a, e) → status e = LOADED → truthy (model e) = true →
  let s' := loadModel now modelName inline s in
  call_result s' (length (calls s)) = Some (Fulfilled (model e)) ∧
  promises s' = promises s ∧
  microtasks s' = microtasks s ∧
  get_entry s' modelName = Some (a, with_lastUsed now e).
Proof.
  intros G Hst Ht s'. subst s'. rewrite (loadModel_hit _ _ _ _ _ _ G Hst Ht).
  repeat split.
  - unfold call_result. simpl. by rewrite list_lookup_middle.
  - change (get_entry (update_entry a (with_lastUsed now) s) modelName
            = Some (a, with_lastUsed now e)).
    by apply get_entry_update.
Qed.

(** ** The inline configuration *)

(** [loadModel(name, config)] for a registered name whose load starts
    registers nothing: the map and the configuration stored in the entry
    stay as they were; and the load function invoked, once, is that of the
    inline configuration, no other. *)
Lemma inline_load_function_invoked_on_start s modelName a e now inline f :
  get_entry s modelName = Some (a, e) → starts_load e → microtasks s = [] →
  cfg_loadModel inline = Some f →
  let s1 := drain (loadModel now modelName (Some inline) s) in
  modelCache s1 = modelCache s ∧
  (∃ e1, get_entry s1 modelName = Some (a, e1) ∧ config e1 = config e) ∧
  promises s1 =
    promises s ++ [{| made_by := f; settled := None; waiters := [length (calls s)] |}] ∧
  invocations f s1 = S (invocations f s) ∧
  (∀ g, g ≠ f → invocations g s1 = invocations g s).
Proof.
  intros G Hst Hq Hf s1.
  destruct (load_then_drain s modelName a e now (Some inline) f G Hst Hq Hf)
    as (Hmc & Ha & Hpr & _ & _).
  fold s1 in Hmc, Ha, Hpr. repeat split; try done.
  - eexists. split.
    + apply get_entry_Some. rewrite Hmc. split; [|exact Ha].
      by apply get_entry_Some in G as [? _].
    + reflexivity.
  - rewrite (invocations_snoc f s s1 _ Hpr). simpl. by rewrite decide_True.
  - intros g Hg. rewrite (invocations_snoc g s s1 _ Hpr). simpl.
    by rewrite decide_False.
Qed.

(** ** Failure and retry *)

(** C4. When the promise of the load function is rejected with [err], the
    entry becomes [ERROR] with [loadPromise] cleared and the call is rejected
    with [err] itself; no load function is invoked and nothing is scheduled
    until the consumer calls [loadModel] again; that call invokes the
    stored load function once more, and when this attempt is fulfilled with
    [v] the entry is [LOADED], holds [v], and the call resolves with [v]. *)
Theorem construction_failure_and_retry s modelName a e cid p f g err now v :
  get_entry s modelName = Some (a, e) →
  cfg_loadModel (config e) = Some f →
  calls s !! cid = Some (AwaitLoad a modelName p) →
  promises s !! p = Some {| made_by := g; settled := None; waiters := [cid] |} →
  microtasks s = [] →
  let s1 := drain (settle p (Rejected err) s) in
  let s2 := drain (loadModel now modelName None s1) in
  let s3 := drain (settle (length (promises s1)) (Fulfilled v) s2) in
  get_entry s1 modelName = Some (a, with_loadPromise None (with_status ERROR e)) ∧
  call_result s1 cid = Some (Rejected err) ∧
  length (promises s1) = length (promises s) ∧
  (∀ h, invocations h s1 = invocations h s) ∧
  drain s1 = s1 ∧
  invocations f s2 = S (invocations f s) ∧
  getModelStatus s2 modelName = LOADING ∧
  get_entry s3 modelName =
    Some (a, {| model := v; status := LOADED; lastUsed := now;
                loadPromise := None; config := config e |}) ∧
  call_result s3 (length (calls s1)) = Some (Fulfilled v) ∧
  (∀ h, invocations h s3 = invocations h s2).
Proof.
  intros G Hf Hc Hp Hq s1 s2 s3.
  pose proof G as [Hm Ha]%get_entry_Some.
  destruct (settle_then_drain s cid a modelName p g e (Rejected err) Hc Hp Ha Hq)
    as (Hmc1 & Ha1 & _ & Hpr1 & Hca1 & Hq1).
  fold s1 in Hmc1, Ha1, Hpr1, Hca1, Hq1. simpl in Ha1.
  assert (G1 : get_entry s1 modelName = Some (a, with_loadPromise None (with_status ERROR e))).
  { apply get_entry_Some. by rewrite Hmc1. }
  assert (Hst1 : starts_load (with_loadPromise None (with_status ERROR e))).
  { split; simpl; [apply andb_false_r | done]. }
  destruct (load_then_drain s1 modelName a _ now None f G1 Hst1 Hq1 Hf)
    as (Hmc2 & Ha2 & Hpr2 & Hca2 & Hq2).
  fold s2 in Hmc2, Ha2, Hpr2, Hca2, Hq2.
  assert (Hc2 : calls s2 !! length (calls s1) = Some (AwaitLoad a modelName (length (promises s1))))
    by (by rewrite Hca2, list_lookup_middle).
  assert (Hp2 : promises s2 !! length (promises s1) =
                Some {| made_by := f; settled := None; waiters := [length (calls s1)] |})
    by (by rewrite Hpr2, list_lookup_middle).
  destruct (settle_then_drain s2 _ a modelName _ f _ (Fulfilled v) Hc2 Hp2 Ha2 Hq2)
    as (Hmc3 & Ha3 & _ & Hpr3 & Hca3 & Hq3).
  fold s3 in Hmc3, Ha3, Hpr3, Hca3, Hq3. simpl in Ha3.
  assert (Hinv : ∀ (l : list JsPromise) q pr pr' h,
             l !! q = Some pr → made_by pr' = made_by pr →
             length (filter (λ x, made_by x = h) (<[q := pr']> l)) =
             length (filter (λ x, made_by x = h) l)).
  { intros l q pr pr' h. revert q. induction l as [|x l IH]; intros [|q]; simpl; try done.
    - intros [= ->] Heq. rewrite !filter_cons, Heq. by destruct (decide _).
    - intros Hl Heq. rewrite !filter_cons. destruct (decide _); simpl; by rewrite IH. }
  repeat split.
  - exact G1.
  - unfold call_result. rewrite Hca1.
    rewrite list_lookup_insert_eq by (by eapply lookup_lt_Some). done.
  - by rewrite Hpr1, length_insert.
  - intros h. unfold invocations. rewrite Hpr1. by eapply Hinv.
  - by apply drain_idle.
  - rewrite (invocations_snoc f s1 s2 _ Hpr2). simpl. rewrite decide_True by done.
    f_equal. unfold invocations. rewrite Hpr1. by eapply Hinv.
  - unfold getModelStatus.
    assert (G2 : get_entry s2 modelName = Some (a, with_loadPromise (Some (length (promises s1)))
              (with_status LOADING (with_lastUsed now (with_loadPromise None (with_status ERROR e)))))).
    { apply get_entry_Some. by rewrite Hmc2, Hmc1. }
    by rewrite G2.
  - apply get_entry_Some. by rewrite Hmc3, Hmc2, Hmc1.
  - unfold call_result. rewrite Hca3.
    rewrite list_lookup_insert_eq by (by eapply lookup_lt_Some). done.
  - intros h. unfold invocations. rewrite Hpr3. by eapply Hinv.
Qed.

(** ** Overlapping calls *)

(** What the synchronous part of a starting load leaves behind. *)
Lemma loadModel_starts_state s n a e now inline :
  get_entry s n = Some (a, e) → starts_load e →
  let s1 := loadModel now n inline s in
  get_entry s1 n = Some (a, with_status LOADING (with_lastUsed now e)) ∧
  promises s1 = promises s ∧
  calls s1 = calls s ++ [AwaitSpace a n inline] ∧
  microtasks s1 = microtasks s ++ [length (calls s)].
Proof.
  intros G Hst s1. subst s1. rewrite (loadModel_starts _ _ _ _ now inline G Hst).
  cbv zeta. destruct (started_entry _ _ _ _ now G) as [Hu Ha1].
  pose proof G as [Hm _]%get_entry_Some.
  pose proof (unloads_modelCache _ _ Hu) as Hmc.
  pose proof (unloads_promises _ _ Hu) as Hpr.
  pose proof (unloads_calls _ _ Hu) as Hca.
  pose proof (unloads_microtasks _ _ Hu) as Hmi.
  revert Hu Ha1 Hmc Hpr Hca Hmi. generalize (ensureCacheSpace
    (update_entry a (with_status LOADING) (update_entry a (with_lastUsed now) s))).
  intros s3 Hu Ha1 Hmc Hpr Hca Hmi. simpl in *.
  split; [apply get_entry_Some; simpl; by rewrite Hmc|].
  by rewrite Hpr, Hca, Hmi.
Qed.

(** The microtask of a call suspended before the load function. *)
Lemma resume_invokes s cid a n e f :
  calls s !! cid = Some (AwaitSpace a n None) → objects s !! a = Some e →
  cfg_loadModel (config e) = Some f →
  let s' := resume cid s in
  promises s' =
    promises s ++ [{| made_by := f; settled := None; waiters := [cid] |}] ∧
  calls s' = <[cid := AwaitLoad a n (length (promises s))]> (calls s) ∧
  objects s' !! a = Some (with_loadPromise (Some (length (promises s))) e).
Proof.
  intros Hc Ha Hf s'. subst s'. unfold resume. rewrite Hc.
  unfold after_space. rewrite Ha. simpl. rewrite Hf. simpl.
  by rewrite list_lookup_alter_eq, Ha.
Qed.

(** Two calls for one name in one synchronous run, from any state in which
    the first call starts a load: each invokes the stored load function. *)
Lemma overlapping_loads_each_invoke s n a e f now1 now2 :
  get_entry s n = Some (a, e) → starts_load e → loadPromise e = None →
  microtasks s = [] → cfg_loadModel (config e) = Some f →
  let s2 := drain (loadModel now2 n None (loadModel now1 n None s)) in
  promises s2 =
    promises s ++
      [{| made_by := f; settled := None; waiters := [length (calls s)] |};
       {| made_by := f; settled := None; waiters := [S (length (calls s))] |}] ∧
  invocations f s2 = S (S (invocations f s)).
Proof.
  intros G Hst Hlp Hq Hf s2.
  assert (Hpr : promises s2 =
    promises s ++
      [{| made_by := f; settled := None; waiters := [length (calls s)] |};
       {| made_by := f; settled := None; waiters := [S (length (calls s))] |}]).
  { subst s2.
    destruct (loadModel_starts_state s n a e now1 None G Hst) as (G1 & Hp1 & Hc1 & Hq1).
    revert G1 Hp1 Hc1 Hq1. generalize (loadModel now1 n None s).
    intros s1 G1 Hp1 Hc1 Hq1.
    assert (Hst1 : starts_load (with_status LOADING (with_lastUsed now1 e))).
    { split; simpl; [apply andb_false_r | done]. }
    destruct (loadModel_starts_state s1 n a _ now2 None G1 Hst1) as (G2 & Hp2 & Hc2 & Hq2).
    revert G2 Hp2 Hc2 Hq2. generalize (loadModel now2 n None s1).
    intros s2 [_ Ha2]%get_entry_Some Hp2 Hc2 Hq2.
    rewrite Hq1, Hq, Hc1 in Hq2. rewrite Hc1 in Hc2. rewrite Hp1 in Hp2. simpl in Hq2.
    rewrite length_app in Hq2. simpl in Hq2.
    unfold drain. rewrite Hq2. cbn [foldl].
    remember (length (calls s)) as c eqn:Ec.
    assert (Hcc : calls (with_microtasks [] s2) !! c = Some (AwaitSpace a n None)).
    { simpl. rewrite Hc2. apply lookup_app_l_Some. by apply list_lookup_middle. }
    destruct (resume_invokes _ c a n _ f Hcc Ha2 Hf) as (Hp3 & Hc3 & Ha3).
    revert Hp3 Hc3 Ha3. generalize (resume c (with_microtasks [] s2)).
    intros s3 Hp3 Hc3 Ha3. simpl in Hp3, Hc3, Ha3.
    assert (Hcc' : calls s3 !! (c + 1)%nat = Some (AwaitSpace a n None)).
    { rewrite Hc3, list_lookup_insert_ne by lia. rewrite Hc2.
      apply list_lookup_middle. rewrite length_app. simpl. by rewrite Ec. }
    destruct (resume_invokes _ _ a n _ f Hcc' Ha3 Hf) as (Hp4 & _ & _).
    rewrite Hp4, Hp3, Hp2, <- app_assoc. simpl.
    by rewrite Nat.add_1_r. }
  split; [exact Hpr|].
  unfold invocations. rewrite Hpr, filter_app, length_app.
  rewrite !filter_cons, filter_nil. rewrite !decide_True by done. simpl. lia.
Qed.

(** ** One binding per key *)

Lemma registerModel_keys now cfg s :
  NoDup (modelCache s).*1 → NoDup (modelCache (registerModel now cfg s)).*1.
Proof.
  intros Hnd. unfold registerModel, Map_has.
  destruct (Map_get (modelCache s) (cfg_name cfg)) eqn:E; [done|]. simpl.
  rewrite Map_set_fresh by done. rewrite fmap_app. simpl.
  apply NoDup_app. split; [done|]. split.
  - intros k Hk Hin. apply list_elem_of_singleton in Hin as ->.
    by apply Map_get_None_keys in E.
  - apply NoDup_singleton.
Qed.

Lemma loadModel_modelCache now n inline s :
  modelCache (loadModel now n inline s) =
  modelCache match inline with
             | Some cfg =>
                 if Map_has (modelCache s) n then s else registerModel now cfg s
             | None => s
             end.
Proof.
  unfold loadModel. set (s1 := match inline with Some _ => _ | None => _ end).
  destruct (get_entry s1 n) as [[a e]|]; [|done]. simpl.
  destruct (_ && _); [done|].
  assert (H : modelCache (ensureCacheSpace
      (update_entry a (with_status LOADING) (update_entry a (with_lastUsed now) s1)))
      = modelCache s1).
  { by rewrite (unloads_modelCache _ _ (ensureCacheSpace_unloads _)). }
  destruct (status e); try done; destruct (loadPromise e); done.
Qed.

Lemma step_keys s ev : NoDup (modelCache s).*1 → NoDup (modelCache (step s ev)).*1.
Proof.
  intros Hnd.
  assert (Hload : ∀ now n inline, NoDup (modelCache (loadModel now n inline s)).*1).
  { intros now n inline. rewrite loadModel_modelCache.
    destruct inline as [cfg|]; [|done].
    destruct (Map_has _ _); [done|]. by apply registerModel_keys. }
  destruct ev; simpl.
  - unfold initialize. by destruct (isInitialized s).
  - by apply registerModel_keys.
  - apply Hload.
  - unfold preloadModel. destruct (get_entry s modelName) as [[a e]|]; [|done].
    case_bool_decide; [apply Hload | done].
  - by rewrite (unloads_modelCache _ _ (unloadModel_unloads _ _)).
  - unfold cleanupExpiredModels.
    by rewrite (unloads_modelCache _ _ (cleanup_loop_unloads _ _ _)).
  - apply NoDup_nil_2.
  - by rewrite settle_modelCache.
  - by rewrite drain_modelCache.
Qed.

(** Every state the loader can reach has a proper [Map]. *)
Lemma reachable_keys s : reachable s → NoDup (modelCache s).*1.
Proof.
  intros (options & evs & ->). unfold run.
  assert (H : NoDup (modelCache (new_AIModelLoader options)).*1) by apply NoDup_nil_2.
  revert H. generalize (new_AIModelLoader options).
  induction evs as [|ev evs IH]; intros s0 H; simpl; [done|].
  apply IH. by apply step_keys.
Qed.

(** ** The sweep *)

Lemma expired_test now ttl e :
  bool_decide (status e = LOADED) && (now - lastUsed e >? ttl) = true ↔ expired now ttl e.
Proof.
  unfold expired. rewrite andb_true_iff, bool_decide_eq_true, Z.gtb_gt. done.
Qed.

Lemma expire_idemp now ttl e : expire now ttl (expire now ttl e) = expire now ttl e.
Proof.
  unfold expire. destruct (decide (expired now ttl e)) as [H|H].
  - rewrite decide_False; [done|]. by intros [? _].
  - by rewrite decide_False.
Qed.

Lemma cleanup_step now k a s :
  Map_get (modelCache s) k = Some a →
  let s1 := match objects s !! a with
            | Some entry =>
                if bool_decide (status entry = LOADED) && (now - lastUsed entry >? cacheTtl s)
                then unloadModel k s
                else s
            | None => s
            end in
  unloads s s1 ∧
  ∀ b, objects s1 !! b =
       if decide (b = a) then expire now (cacheTtl s) <$> objects s !! b
       else objects s !! b.
Proof.
  intros Hk s1. split.
  { subst s1. destruct (objects s !! a); [|apply unloads_refl].
    destruct (_ && _); [apply unloadModel_unloads | apply unloads_refl]. }
  intros b. subst s1. destruct (objects s !! a) as [entry|] eqn:Ha.
  - destruct (_ && _) eqn:T.
    + apply expired_test in T. unfold unloadModel, get_entry. rewrite Hk, Ha.
      destruct T as [Hst Hold]. rewrite bool_decide_eq_true_2 by done. simpl.
      destruct (decide (b = a)) as [->|Hne].
      * rewrite list_lookup_alter_eq, Ha. simpl. unfold expire.
        by rewrite decide_True.
      * by rewrite list_lookup_alter_ne.
    + destruct (decide (b = a)) as [->|Hne]; [|done].
      rewrite Ha. simpl. unfold expire. rewrite decide_False; [done|].
      intros H%expired_test. congruence.
  - destruct (decide (b = a)) as [->|Hne]; [|done]. by rewrite Ha.
Qed.

Lemma cleanup_loop_spec now l s :
  (∀ k a, (k, a) ∈ l → Map_get (modelCache s) k = Some a) →
  ∀ b, objects (cleanup_loop now l s) !! b =
       if decide (b ∈ l.*2) then expire now (cacheTtl s) <$> objects s !! b
       else objects s !! b.
Proof.
  revert s. induction l as [|[k a] l IH]; intros s Hl b.
  - reflexivity.
  - cbn [cleanup_loop fmap list_fmap snd].
    assert (Hk : Map_get (modelCache s) k = Some a) by (apply Hl; left).
    destruct (cleanup_step now k a s Hk) as [Hu Hs1].
    set (s1 := match objects s !! a with Some _ => _ | None => _ end) in *.
    rewrite IH.
    2:{ intros k' a' Hin. rewrite (unloads_modelCache _ _ Hu). apply Hl. by right. }
    rewrite (unloads_cacheTtl _ _ Hu), Hs1.
    destruct (decide (b = a)) as [->|Hne].
    + rewrite (decide_True (P := a ∈ a :: l.*2)) by left.
      destruct (decide (a ∈ l.*2)); [|done].
      destruct (objects s !! a); simpl; [|done]. by rewrite expire_idemp.
    + destruct (decide (b ∈ l.*2)) as [Hin|Hin].
      * rewrite decide_True; [done|]. by right.
      * rewrite decide_False; [done|]. rewrite not_elem_of_cons. done.
Qed.

(** ** Only the sweep reads the time to live *)

Section time_to_live.

Variable t : Z.

Lemma unloadModel_ttl n s :
  unloadModel n (with_cacheTtl t s) = with_cacheTtl t (unloadModel n s).
Proof.
  unfold unloadModel, get_entry. simpl.
  destruct (Map_get _ _) as [a|]; [|done].
  destruct (objects s !! a) as [e|]; [|done]. by case_bool_decide.
Qed.

Lemma evict_loop_ttl l s :
  evict_loop l (with_cacheTtl t s) = with_cacheTtl t (evict_loop l s).
Proof.
  revert s. induction l as [|[k e] l IH]; intros s; simpl; [done|].
  destruct (_ >? _); [|done]. rewrite unloadModel_ttl. apply IH.
Qed.

Lemma ensureCacheSpace_ttl s :
  ensureCacheSpace (with_cacheTtl t s) = with_cacheTtl t (ensureCacheSpace s).
Proof.
  unfold ensureCacheSpace. simpl. destruct (_ <=? _); [done|].
  change (cache_entries (with_cacheTtl t s)) with (cache_entries s).
  apply evict_loop_ttl.
Qed.

Lemma dispose_loop_ttl l s :
  dispose_loop l (with_cacheTtl t s) = with_cacheTtl t (dispose_loop l s).
Proof.
  revert s. induction l as [|[k a] l IH]; intros s; simpl; [done|].
  rewrite unloadModel_ttl. apply IH.
Qed.

Lemma registerModel_ttl now cfg s :
  registerModel now cfg (with_cacheTtl t s) = with_cacheTtl t (registerModel now cfg s).
Proof. unfold registerModel. simpl. by destruct (Map_has _ _). Qed.

Lemma loadModel_ttl now n inline s :
  loadModel now n inline (with_cacheTtl t s) = with_cacheTtl t (loadModel now n inline s).
Proof.
  unfold loadModel. simpl.
  set (s1 := match inline with Some _ => _ | None => _ end).
  set (s1' := match inline with Some _ => _ | None => _ end).
  assert (Hs1 : s1 = with_cacheTtl t s1').
  { subst s1 s1'. destruct inline as [cfg|]; [|done].
    destruct (Map_has _ _); [done|]. apply registerModel_ttl. }
  rewrite Hs1. clearbody s1'. clear s1 Hs1.
  change (get_entry (with_cacheTtl t s1') n) with (get_entry s1' n).
  destruct (get_entry s1' n) as [[a e]|]; [|done]. simpl.
  destruct (_ && _); [done|].
  change (update_entry a (with_status LOADING)
            (update_entry a (with_lastUsed now) (with_cacheTtl t s1')))
    with (with_cacheTtl t (update_entry a (with_status LOADING)
                             (update_entry a (with_lastUsed now) s1'))).
  rewrite ensureCacheSpace_ttl.
  destruct (status e); try done; destruct (loadPromise e); done.
Qed.

Lemma resume_ttl cid s :
  resume cid (with_cacheTtl t s) = with_cacheTtl t (resume cid s).
Proof.
  unfold resume. simpl. destruct (calls s !! cid) as [[a n i|a n p|p|o]|]; try done.
  - unfold after_space. simpl. destruct (objects s !! a); [|done].
    by destruct (cfg_loadModel _).
  - destruct (promises s !! p) as [[f [o|] ws]|]; try done. by destruct o.
Qed.

Lemma drain_ttl s : drain (with_cacheTtl t s) = with_cacheTtl t (drain s).
Proof.
  unfold drain. simpl.
  change (with_microtasks [] (with_cacheTtl t s))
    with (with_cacheTtl t (with_microtasks [] s)).
  generalize (with_microtasks [] s). induction (microtasks s) as [|cid q IH];
    intros s0; simpl; [done|].
  rewrite resume_ttl. apply IH.
Qed.

Lemma step_ttl ev s :
  is_cleanup ev = false → step (with_cacheTtl t s) ev = with_cacheTtl t (step s ev).
Proof.
  destruct ev; simpl; try done; intros _.
  - unfold initialize. simpl. by destruct (isInitialized s).
  - apply registerModel_ttl.
  - apply loadModel_ttl.
  - unfold preloadModel.
    change (get_entry (with_cacheTtl t s) modelName) with (get_entry s modelName).
    destruct (get_entry s modelName) as [[a e]|]; [|done].
    case_bool_decide; [apply loadModel_ttl | done].
  - apply unloadModel_ttl.
  - unfold dispose. simpl. by rewrite dispose_loop_ttl.
  - unfold settle. simpl. by destruct (promises s !! p) as [[f [o'|] ws]|].
  - apply drain_ttl.
Qed.

Lemma run_ttl evs s :
  forallb (λ ev, negb (is_cleanup ev)) evs = true →
  run (with_cacheTtl t s) evs = with_cacheTtl t (run s evs).
Proof.
  revert s. induction evs as [|ev evs IH]; intros s; simpl; [done|].
  intros [Hev Hevs]%andb_prop. apply negb_true_iff in Hev.
  unfold run in *. simpl. rewrite step_ttl by done. by apply IH.
Qed.

End time_to_live.

(** C7. In a state whose map has one binding per key (every reachable state,
    by [reachable_keys]), [cleanupExpiredModels()] unloads (status [IDLE],
    resource cleared) the registered entries that are [LOADED] with
    [now - lastUsed] above the time to live, and leaves every other
    registered entry and the map as they are; and the time to live is read
    by nothing else: a run without a sweep is the same whatever the time to
    live is, so no entry expires before the sweep is called. *)
Theorem ttl_expiry now s :
  NoDup (modelCache s).*1 →
  let s' := cleanupExpiredModels now s in
  modelCache s' = modelCache s ∧
  (∀ modelName a e, get_entry s modelName = Some (a, e) →
     (expired now (cacheTtl s) e → get_entry s' modelName = Some (a, unloaded e)) ∧
     (¬ expired now (cacheTtl s) e → get_entry s' modelName = Some (a, e))) ∧
  (∀ t evs, forallb (λ ev, negb (is_cleanup ev)) evs = true →
     run (with_cacheTtl t s) evs = with_cacheTtl t (run s evs)).
Proof.
  intros Hnd s'.
  assert (Hmc : modelCache s' = modelCache s)
    by apply (unloads_modelCache _ _ (cleanup_loop_unloads _ _ _)).
  split; [done|]. split.
  - intros n a e [Hm Ha]%get_entry_Some.
    assert (Hs' : objects s' !! a = Some (expire now (cacheTtl s) e)).
    { unfold s', cleanupExpiredModels. rewrite cleanup_loop_spec.
      - rewrite decide_True, Ha; [done|].
        apply list_elem_of_fmap. exists (n, a). split; [done|].
        by apply Map_get_elem_of.
      - intros k a'. by apply Map_get_NoDup. }
    unfold expire in Hs'. split; intros H; apply get_entry_Some; rewrite Hmc;
      (split; [done|]).
    + by rewrite decide_True in Hs'.
    + by rewrite decide_False in Hs'.
  - intros t evs Hevs. by apply run_ttl.
Qed.

(** ** The eviction pass *)

Lemma sort_insert_elem_of x y l : x ∈ sort_insert y l ↔ x = y ∨ x ∈ l.
Proof.
  induction l as [|z l IH]; simpl.
  - rewrite list_elem_of_singleton. split; [by left | intros [H|H]; [done|]].
    by apply elem_of_nil in H.
  - destruct (_ <=? _).
    + by rewrite elem_of_cons.
    + rewrite !elem_of_cons, IH. tauto.
Qed.

Lemma sort_by_lastUsed_elem_of x l : x ∈ sort_by_lastUsed l ↔ x ∈ l.
Proof.
  unfold sort_by_lastUsed. induction l as [|y l IH]; simpl; [done|].
  by rewrite sort_insert_elem_of, IH, elem_of_cons.
Qed.

Lemma cache_entries_elem_of s n a e :
  get_entry s n = Some (a, e) → (n, e) ∈ cache_entries s.
Proof.
  intros [Hm Ha]%get_entry_Some. unfold cache_entries.
  apply list_elem_of_omap. exists (n, a). split; [by apply Map_get_elem_of|].
  by rewrite Ha.
Qed.

(** While the map holds more names than [maxCacheSize], the loop goes
    through all of [entries]: unloading removes no name from the map. *)
Lemma evict_loop_over_capacity entries s n a e :
  Z.of_nat (length (modelCache s)) > maxCacheSize s →
  n ∈ entries.*1 → get_entry s n = Some (a, e) →
  objects (evict_loop entries s) !! a
  = Some (if decide (status e = LOADED) then unloaded e else e).
Proof.
  revert s e. induction entries as [|[k x] l IH]; intros s e Hover Hin G.
  - by apply elem_of_nil in Hin.
  - cbn [evict_loop]. rewrite (proj2 (Z.gtb_gt _ _)) by done.
    pose proof (unloadModel_unloads k s) as Hu.
    pose proof G as [Hm Ha]%get_entry_Some.
    assert (Hover1 : Z.of_nat (length (modelCache (unloadModel k s)))
                     > maxCacheSize (unloadModel k s)).
    { by rewrite (unloads_modelCache _ _ Hu), (unloads_maxCacheSize _ _ Hu). }
    destruct (decide (k = n)) as [->|Hne].
    + assert (H1 : objects (unloadModel n s) !! a
                   = Some (if decide (status e = LOADED) then unloaded e else e)).
      { unfold unloadModel. rewrite G. case_bool_decide as Hst.
        - simpl. rewrite list_lookup_alter_eq, Ha. simpl. by rewrite decide_True.
        - by rewrite decide_False. }
      eapply unloads_keeps; [apply evict_loop_unloads | exact H1 |].
      destruct (decide _); [done|done].
    + apply elem_of_cons in Hin as [->|Hin]; [done|].
      destruct (unloads_obj _ _ Hu a) as [Hsame|(e' & He' & Hst & Hnew)].
      * rewrite (IH (unloadModel k s) e); try done.
        apply get_entry_Some. rewrite (unloads_modelCache _ _ Hu). by rewrite Hsame.
      * rewrite Ha in He'. injection He' as <-.
        rewrite (IH (unloadModel k s) (unloaded e)); try done.
        -- simpl. by rewrite decide_True.
        -- apply get_entry_Some. by rewrite (unloads_modelCache _ _ Hu).
Qed.

(** With more registered names than [maxCacheSize], [ensureCacheSpace]
    unloads every [LOADED] entry, not only the least recently used. *)
Lemma ensureCacheSpace_over_capacity s n a e :
  Z.of_nat (length (modelCache s)) > maxCacheSize s →
  get_entry s n = Some (a, e) → status e = LOADED →
  get_entry (ensureCacheSpace s) n = Some (a, unloaded e).
Proof.
  intros Hover G Hst. pose proof G as [Hm Ha]%get_entry_Some.
  apply get_entry_Some.
  rewrite (unloads_modelCache _ _ (ensureCacheSpace_unloads s)). split; [done|].
  unfold ensureCacheSpace. rewrite (proj2 (Z.leb_gt _ _)) by lia.
  rewrite (evict_loop_over_capacity _ s n a e Hover); [by rewrite decide_True| |done].
  apply list_elem_of_fmap. exists (n, e). split; [done|].
  apply sort_by_lastUsed_elem_of, list_elem_of_filter. split; [done|].
  by apply (cache_entries_elem_of s n a e).
Qed.

(** ** Scenarios *)

(** C1. With capacity 2 and "x", "y" loaded in this order at times 1 and
    2, loading "z" at time 3 unloads "x" and "y" both, not "x" alone; and
    when the three names are registered beforehand, loading "y" already
    unloads "x".  See [ensureCacheSpace_over_capacity] for the general
    fact. *)
Theorem lru_eviction_unloads_every_loaded_entry :
  let s3 := load_and_settle 3 "z" (Some (cfg "z" 2)) (Fulfilled (JsObject 3)) xy_loaded in
  (getModelStatus xy_loaded "x" = LOADED ∧ getModelStatus xy_loaded "y" = LOADED) ∧
  (getModelStatus s3 "x" = IDLE ∧ getModelStatus s3 "y" = IDLE ∧
   getModelStatus s3 "z" = LOADED) ∧
  let r1 := load_and_settle 1 "x" None (Fulfilled (JsObject 1)) xyz_registered in
  let r2 := load_and_settle 2 "y" None (Fulfilled (JsObject 2)) r1 in
  getModelStatus r1 "x" = LOADED ∧
  getModelStatus r2 "x" = IDLE ∧ getModelStatus r2 "y" = LOADED.
Proof. vm_compute. repeat split. Qed.

(** C2. Two [loadModel("a")] calls made one after the other, before any
    microtask runs, invoke the load function twice: the second call finds
    the status [LOADING] but no promise stored yet.  Each call resolves with
    the result of its own invocation.  See [overlapping_loads_each_invoke]
    for any state and name. *)
Theorem overlapping_loads_invoke_load_function_twice now1 now2 v1 v2 :
  let s1 := loadModel now1 "a" None a_registered in
  let s2 := drain (loadModel now2 "a" None s1) in
  let s3 := drain (settle 1 (Fulfilled v2) (drain (settle 0 (Fulfilled v1) s2))) in
  getModelStatus a_registered "a" = IDLE ∧
  getModelStatus s1 "a" = LOADING ∧
  invocations 0 s2 = 2%nat ∧
  call_result s3 0%nat = Some (Fulfilled v1) ∧
  call_result s3 1%nat = Some (Fulfilled v2).
Proof. repeat split. Qed.

(** A call that finds the entry [LOADING] with its promise stored joins
    that promise: no load function is invoked, nothing is scheduled, and the
    call settles as the promise does. *)
Lemma load_joins_stored_promise s n a e p now inline :
  get_entry s n = Some (a, e) → status e = LOADING → loadPromise e = Some p →
  let s' := loadModel now n inline s in
  calls s' = calls s ++ [Joined p] ∧
  promises s' = promises s ∧
  microtasks s' = microtasks s ∧
  call_result s' (length (calls s)) = promises s !! p ≫= settled.
Proof.
  intros G Hst Hp s'. subst s'. unfold loadModel.
  rewrite (no_late_registration _ _ _ _ now inline G), G. simpl. rewrite Hst, Hp.
  rewrite bool_decide_eq_false_2, andb_false_r by done. simpl.
  repeat split. unfold call_result. simpl. rewrite list_lookup_middle by done.
  by destruct (promises s !! p).
Qed.

(** C3 (as stated) fails: after the failed load of "b", "a" is no longer
    [LOADED], and the next load of "a" invokes its load function again. *)
Lemma capacity1_scenario_a_is_unloaded :
  let s1 := load_and_settle 1 "a" None (Fulfilled (JsObject 1)) (ab_registered 0) in
  let s2 := load_and_settle 2 "b" None (Rejected (Thrown (JsString "failed"))) s1 in
  let s3 := drain (loadModel 3 "a" None s2) in
  getModelStatus s1 "a" = LOADED ∧
  ¬ (getModelStatus s2 "a" = LOADED ∧ invocations 0 s3 = invocations 0 s2).
Proof. vm_compute. split; [done|]. by intros [? _]. Qed.

(** C3 (amended). Capacity 1, "a" and "b" registered.  The load of "a"
    leaves it [LOADED].  The load of "b" first runs the eviction pass, which
    unloads "a" as two names exceed the capacity; then the load function of
    "b" fails: "b" is [ERROR], "a" is [IDLE], and the call is rejected with
    the error.  A further load of "a" invokes its load function a second
    time and leaves "a" [LOADED] with the new resource. *)
Theorem capacity1_failed_load_evicts_first t ta tb tc va vc err :
  let s1 := load_and_settle ta "a" None (Fulfilled va) (ab_registered t) in
  let s2 := load_and_settle tb "b" None (Rejected err) s1 in
  let s3 := load_and_settle tc "a" None (Fulfilled vc) s2 in
  getModelStatus s1 "a" = LOADED ∧
  (let called := loadModel tb "b" None s1 in
   getModelStatus called "a" = IDLE ∧ invocations 1 called = 0%nat) ∧
  invocations 1 s2 = 1%nat ∧
  getModelStatus s2 "b" = ERROR ∧
  call_result s2 1%nat = Some (Rejected err) ∧
  get_entry s2 "a" =
    Some (0%nat, {| model := JsNull; status := IDLE; lastUsed := ta;
                    loadPromise := None; config := cfg "a" 0 |}) ∧
  invocations 0 s2 = 1%nat ∧
  invocations 0 s3 = 2%nat ∧
  get_entry s3 "a" =
    Some (0%nat, {| model := vc; status := LOADED; lastUsed := tc;
                    loadPromise := None; config := cfg "a" 0 |}) ∧
  call_result s3 2%nat = Some (Fulfilled vc).
Proof. repeat split. Qed.

(** ** The resource invariant *)

(** C8. The run [overlapping_run], in which "a" is preloaded and loaded in
    one synchronous run, ends with "a" in status [ERROR] while its entry
    still holds the resource of the first invocation: a reachable state in
    which a resource is held by an entry that is not [LOADED]. *)
Theorem resource_invariant_broken_by_overlapping_loads :
  let s := run (new_AIModelLoader no_options) overlapping_run in
  reachable s ∧
  get_entry s "a" =
    Some (0%nat, {| model := JsObject 1; status := ERROR; lastUsed := 1;
                    loadPromise := None; config := cfg "a" 0 |}) ∧
  ¬ resource_invariant s.
Proof.
  intros s. split; [by exists no_options, overlapping_run|].
  assert (G : get_entry s "a" =
    Some (0%nat, {| model := JsObject 1; status := ERROR; lastUsed := 1;
                    loadPromise := None; config := cfg "a" 0 |})) by reflexivity.
  split; [exact G|]. intros Hinv. by specialize (Hinv _ _ _ G ltac:(done)).
Qed.

(** C6 (as stated) fails: a load function may resolve with a falsy value;
    the entry is then [LOADED], and the next [loadModel] invokes the load
    function again. *)
Lemma loaded_entry_with_falsy_resource_reloads :
  let s := load_and_settle 1 "a" None (Fulfilled JsUndefined) a_registered in
  getModelStatus s "a" = LOADED ∧
  invocations 0 (drain (loadModel 2 "a" None s)) ≠ invocations 0 s.
Proof. vm_compute. split; [done|]. discriminate. Qed.

(** ** Instances *)

Lemma cache_hit_returns_cached_resource_witness :
  let s := load_and_settle 1 "a" None (Fulfilled (JsObject 1)) a_registered in
  let s' := loadModel 5 "a" None s in
  getModelStatus s "a" = LOADED ∧
  call_result s' 1%nat = Some (Fulfilled (JsObject 1)) ∧
  promises s' = promises s ∧
  microtasks s' = microtasks s ∧
  get_entry s' "a" =
    Some (0%nat, {| model := JsObject 1; status := LOADED; lastUsed := 5;
                    loadPromise := None; config := cfg "a" 0 |}).
Proof.
  intros s s'. split; [reflexivity|].
  apply (cache_hit_returns_cached_resource s "a" 0
           {| model := JsObject 1; status := LOADED; lastUsed := 1;
              loadPromise := None; config := cfg "a" 0 |} 5 None);
    reflexivity.
Defined.


Lemma construction_failure_and_retry_witness :
  let s := drain (loadModel 1 "a" None a_registered) in
  let s1 := drain (settle 0 (Rejected (Thrown (JsString "failed"))) s) in
  let s2 := drain (loadModel 2 "a" None s1) in
  let s3 := drain (settle 1 (Fulfilled (JsObject 1)) s2) in
  getModelStatus s1 "a" = ERROR ∧
  call_result s1 0%nat = Some (Rejected (Thrown (JsString "failed"))) ∧
  invocations 0 s1 = 1%nat ∧
  invocations 0 s2 = 2%nat ∧
  getModelStatus s3 "a" = LOADED ∧
  call_result s3 1%nat = Some (Fulfilled (JsObject 1)).
Proof.
  intros s s1 s2 s3.
  destruct (construction_failure_and_retry s "a" 0
              {| model := JsNull; status := LOADING; lastUsed := 1;
                 loadPromise := Some 0%nat; config := cfg "a" 0 |}
              0 0 0 0 (Thrown (JsString "failed")) 2 (JsObject 1))
    as (G1 & R1 & _ & I1 & _ & I2 & _ & G3 & R3 & _); try reflexivity.
  split; [exact (f_equal (λ o, match o with Some (_, e) => status e | None => IDLE end) G1)|].
  split; [exact R1|]. split; [exact (I1 0%nat)|]. split; [exact I2|].
  split; [exact (f_equal (λ o, match o with Some (_, e) => status e | None => IDLE end) G3)
         | exact R3].
Defined.

Lemma ttl_expiry_witness :
  let s' := cleanupExpiredModels 100 ab_loaded in
  getModelStatus ab_loaded "a" = LOADED ∧
  getModelStatus s' "a" = IDLE ∧
  getModelStatus s' "b" = LOADED.
Proof.
  intros s'.
  destruct (ttl_expiry 100 ab_loaded) as (_ & H & _).
  { apply reachable_keys.
    exists {| opt_maxCacheSize := None; opt_cacheTtl := Some (Num 60) |},
      [ELoad 1 "a" (Some (cfg "a" 0)); EDrain; ESettle 0 (Fulfilled (JsObject 1)); EDrain;
       ELoad 50 "b" (Some (cfg "b" 1)); EDrain; ESettle 1 (Fulfilled (JsObject 2)); EDrain].
    vm_compute. reflexivity. }
  assert (Ga : get_entry ab_loaded "a" =
    Some (0%nat, {| model := JsObject 1; status := LOADED; lastUsed := 1;
                    loadPromise := None; config := cfg "a" 0 |}))
    by (vm_compute; reflexivity).
  assert (Gb : get_entry ab_loaded "b" =
    Some (1%nat, {| model := JsObject 2; status := LOADED; lastUsed := 50;
                    loadPromise := None; config := cfg "b" 1 |}))
    by (vm_compute; reflexivity).
  split; [unfold getModelStatus; by rewrite Ga|]. split.
  - destruct (H _ _ _ Ga) as [Ha _]. unfold getModelStatus.
    fold s' in Ha. rewrite Ha; [done|]. split; [done|]. vm_compute. reflexivity.
  - destruct (H _ _ _ Gb) as [_ Hb]. unfold getModelStatus.
    fold s' in Hb. rewrite Hb; [done|]. intros [_ Hold]. vm_compute in Hold.
    discriminate.
Defined.

Lemma dispose_forgets_registrations_witness :
  let s := dispose xy_loaded in
  getModelStatus xy_loaded "x" = LOADED ∧
  getModelStatus s "x" = IDLE ∧
  getModelStatus (run s [EDrain; ESettle 0 (Fulfilled (JsObject 1)); EDrain]) "x" = IDLE ∧
  call_result (loadModel 9 "x" None s) 2%nat = Some (Rejected (NotRegistered "x")).
Proof.
  intros s.
  destruct (dispose_forgets_registrations xy_loaded "x" 9)
    as (_ & _ & Hst & Hbg & Hres & _).
  split; [vm_compute; reflexivity|]. split; [exact Hst|].
  split; [apply Hbg; reflexivity | exact Hres].
Defined.

(** * Further properties *)

(** ** Registration *)

Lemma Map_get_app m m' k :
  Map_get (m ++ m') k =
  match Map_get m k with Some a => Some a | None => Map_get m' k end.
Proof.
  induction m as [|[k' a'] m IH]; simpl; [done|]. by destruct (String.eqb k' k).
Qed.

Lemma registerModel_fresh_state now cfg s :
  Map_get (modelCache s) (cfg_name cfg) = None →
  registerModel now cfg s =
  with_modelCache (modelCache s ++ [(cfg_name cfg, length (objects s))])
    (with_objects
       (objects s ++
          [{| model := JsNull; status := IDLE; lastUsed := now;
              loadPromise := None; config := cfg |}]) s).
Proof.
  intros H. unfold registerModel, Map_has. rewrite H. by rewrite Map_set_fresh.
Qed.

Lemma registerModel_registered now cfg s :
  Map_has (modelCache (registerModel now cfg s)) (cfg_name cfg) = true.
Proof.
  destruct (Map_get (modelCache s) (cfg_name cfg)) as [a|] eqn:E.
  - unfold registerModel, Map_has. rewrite E. by rewrite E.
  - rewrite registerModel_fresh_state by done. unfold Map_has. simpl.
    rewrite Map_get_app, E. simpl. by rewrite String.eqb_refl.
Qed.

(** X1. The first registration of a name wins: a second [registerModel]
    for the same name, whatever its load function and whenever it is made,
    changes nothing. *)
Theorem first_registration_wins now1 now2 cfg1 f2 s :
  registerModel now2 {| cfg_name := cfg_name cfg1; cfg_loadModel := f2 |}
    (registerModel now1 cfg1 s)
  = registerModel now1 cfg1 s.
Proof.
  unfold registerModel at 1. cbn [cfg_name]. by rewrite registerModel_registered.
Qed.

(** The state after a first registration. *)
Lemma registerModel_fresh_entry now cfg s :
  Map_get (modelCache s) (cfg_name cfg) = None →
  let s' := registerModel now cfg s in
  get_entry s' (cfg_name cfg) =
    Some (length (objects s),
          {| model := JsNull; status := IDLE; lastUsed := now;
             loadPromise := None; config := cfg |}) ∧
  (∀ n a e, get_entry s n = Some (a, e) → get_entry s' n = Some (a, e)) ∧
  (∀ n, n ≠ cfg_name cfg → Map_get (modelCache s) n = None →
        Map_get (modelCache s') n = None) ∧
  promises s' = promises s ∧ calls s' = calls s ∧ microtasks s' = microtasks s.
Proof.
  intros Hnew s'. subst s'. rewrite registerModel_fresh_state by done.
  split; [|split; [|split; [|done]]].
  - apply get_entry_Some. simpl. rewrite Map_get_app, Hnew. simpl.
    rewrite String.eqb_refl. split; [done|]. by apply list_lookup_middle.
  - intros n a e [Hm Ha]%get_entry_Some. apply get_entry_Some. simpl.
    rewrite Map_get_app, Hm. split; [done|]. by apply lookup_app_l_Some.
  - intros n Hn Hm. simpl. rewrite Map_get_app, Hm. simpl.
    destruct (String.eqb _ _) eqn:E; [|done].
    apply String.eqb_eq in E. congruence.
Qed.

(** X2. Registering a name that is not in the map creates its entry,
    [IDLE], without resource or promise, stamped with the current time and
    holding the configuration; the entries of the names already registered
    and the names still unregistered are as before; no load function is
    invoked and no call is made. *)
Theorem registration_creates_idle_entry now cfg s :
  Map_get (modelCache s) (cfg_name cfg) = None →
  let s' := registerModel now cfg s in
  get_entry s' (cfg_name cfg) =
    Some (length (objects s),
          {| model := JsNull; status := IDLE; lastUsed := now;
             loadPromise := None; config := cfg |}) ∧
  (∀ n a e, get_entry s n = Some (a, e) → get_entry s' n = Some (a, e)) ∧
  (∀ n, n ≠ cfg_name cfg → Map_get (modelCache s) n = None →
        Map_get (modelCache s') n = None) ∧
  promises s' = promises s ∧ calls s' = calls s ∧ microtasks s' = microtasks s.
Proof. apply registerModel_fresh_entry. Qed.

Lemma registration_creates_idle_entry_witness :
  let s' := registerModel 5 (cfg "z" 2) xy_loaded in
  getModelStatus s' "z" = IDLE ∧
  get_entry s' "x" =
    Some (0%nat, {| model := JsObject 1; status := LOADED; lastUsed := 1;
                    loadPromise := None; config := cfg "x" 0 |}) ∧
  promises s' = promises xy_loaded.
Proof.
  intros s'.
  destruct (registration_creates_idle_entry 5 (cfg "z" 2) xy_loaded)
    as (G & Hold & _ & Hp & _); [vm_compute; reflexivity|].
  split; [|split; [|exact Hp]].
  - exact (f_equal (λ o, match o with Some (_, e) => status e | None => IDLE end) G).
  - apply Hold. vm_compute. reflexivity.
Defined.

(** ** Unloading *)

Lemma unloadModel_entry s n a e :
  get_entry s n = Some (a, e) →
  get_entry (unloadModel n s) n =
    Some (a, if decide (status e = LOADED) then unloaded e else e).
Proof.
  intros G. unfold unloadModel. rewrite G. case_bool_decide as Hst.
  - rewrite decide_True by done. by apply get_entry_update.
  - by rewrite decide_False.
Qed.

(** X3. [unloadModel] is idempotent, and whatever the name and the state
    the status it leaves is not [LOADED]; it changes the store of entries
    only. *)
Theorem unloadModel_idempotent n s :
  unloadModel n (unloadModel n s) = unloadModel n s ∧
  getModelStatus (unloadModel n s) n ≠ LOADED ∧
  unloadModel n s = with_objects (objects (unloadModel n s)) s.
Proof.
  destruct (get_entry s n) as [[a e]|] eqn:G.
  - pose proof (unloadModel_entry _ _ _ _ G) as G'.
    split; [|split].
    + unfold unloadModel at 1. rewrite G'.
      rewrite bool_decide_eq_false_2; [done|].
      by destruct (decide (status e = LOADED)).
    + unfold getModelStatus. rewrite G'. by destruct (decide (status e = LOADED)).
    + apply (unloads_rest _ _ (unloadModel_unloads n s)).
  - assert (H : unloadModel n s = s) by (unfold unloadModel; by rewrite G).
    rewrite !H. split; [done|]. split; [|by destruct s].
    unfold getModelStatus. by rewrite G.
Qed.

(** ** The paths of [loadModel] *)

Lemma idle_starts_load e : status e ≠ LOADED → status e ≠ LOADING → starts_load e.
Proof.
  intros H1 H2. split; [|done].
  rewrite bool_decide_eq_false_2 by done. apply andb_false_r.
Qed.

Lemma loadModel_join s n a e p now inline :
  get_entry s n = Some (a, e) → status e = LOADING → loadPromise e = Some p →
  loadModel now n inline s = push_call (Joined p) (update_entry a (with_lastUsed now) s).
Proof.
  intros G Hst Hp. unfold loadModel.
  rewrite (no_late_registration _ _ _ _ now inline G), G. simpl. rewrite Hst, Hp.
  by rewrite bool_decide_eq_false_2, andb_false_r.
Qed.

(** The three ways a call for a registered name can go. *)
Lemma loadModel_cases (e : ModelCacheEntry) :
  (status e = LOADED ∧ truthy (model e) = true) ∨
  (∃ p, status e = LOADING ∧ loadPromise e = Some p) ∨
  starts_load e.
Proof.
  destruct (truthy (model e) && bool_decide (status e = LOADED)) eqn:Hhit.
  - left. apply andb_prop in Hhit as [? ?%bool_decide_eq_true]. done.
  - destruct (decide (status e = LOADING)) as [Hl|Hl].
    + destruct (loadPromise e) as [p|] eqn:Hp.
      * right. left. by exists p.
      * right. right. done.
    + right. right. split; [done|]. intros ?. done.
Qed.

(** X4. Every [loadModel] call for a registered name sets [lastUsed] to the
    current time, whether it is served from the cache, joins a pending
    promise or starts a load; the synchronous part changes neither the
    resource, the promise nor the configuration of the entry, and the status
    only from a state that starts a load, to [LOADING]. *)
Theorem every_load_refreshes_lastUsed s n a e now inline :
  get_entry s n = Some (a, e) →
  ∃ e', get_entry (loadModel now n inline s) n = Some (a, e') ∧
        lastUsed e' = now ∧ model e' = model e ∧
        loadPromise e' = loadPromise e ∧ config e' = config e ∧
        (status e' = status e ∨ (starts_load e ∧ status e' = LOADING)).
Proof.
  intros G.
  destruct (loadModel_cases e) as [[Hst Ht]|[(p & Hst & Hp)|Hs]].
  - exists (with_lastUsed now e). rewrite (loadModel_hit _ _ _ _ _ _ G Hst Ht).
    split; [|by repeat split; try left].
    change (get_entry (update_entry a (with_lastUsed now) s) n
            = Some (a, with_lastUsed now e)). by apply get_entry_update.
  - exists (with_lastUsed now e). rewrite (loadModel_join _ _ _ _ _ _ _ G Hst Hp).
    split; [|by repeat split; try left].
    change (get_entry (update_entry a (with_lastUsed now) s) n
            = Some (a, with_lastUsed now e)). by apply get_entry_update.
  - exists (with_status LOADING (with_lastUsed now e)).
    destruct (loadModel_starts_state s n a e now inline G Hs) as (G1 & _).
    split; [exact G1|]. repeat split. by right.
Qed.

Lemma every_load_refreshes_lastUsed_witness :
  ∃ e', get_entry (loadModel 7 "y" None xy_loaded) "y" = Some (1%nat, e') ∧
        lastUsed e' = 7 ∧ status e' = LOADED.
Proof.
  destruct (every_load_refreshes_lastUsed xy_loaded "y" 1
              {| model := JsObject 2; status := LOADED; lastUsed := 2;
                 loadPromise := None; config := cfg "y" 1 |} 7 None)
    as (e' & G & Hl & _ & _ & _ & [Hst|[[Hhit _] _]]).
  - vm_compute. reflexivity.
  - exists e'. split; [exact G|]. split; [exact Hl | exact Hst].
  - vm_compute in Hhit. discriminate.
Defined.

Lemma ensureCacheSpace_under_capacity s :
  Z.of_nat (length (modelCache s)) ≤ maxCacheSize s → ensureCacheSpace s = s.
Proof. intros H. unfold ensureCacheSpace. by rewrite (proj2 (Z.leb_le _ _)). Qed.

(** X5. While the map holds no more names than [maxCacheSize], a
    [loadModel] call for a registered name unloads nothing: every entry
    object other than that of the name is as before, and so is the map. *)
Theorem load_under_capacity_touches_one_entry s n a e now inline :
  get_entry s n = Some (a, e) →
  Z.of_nat (length (modelCache s)) ≤ maxCacheSize s →
  modelCache (loadModel now n inline s) = modelCache s ∧
  ∀ b, b ≠ a → objects (loadModel now n inline s) !! b = objects s !! b.
Proof.
  intros G Hcap.
  destruct (loadModel_cases e) as [[Hst Ht]|[(p & Hst & Hp)|Hs]].
  - rewrite (loadModel_hit _ _ _ _ _ _ G Hst Ht). split; [done|].
    intros b Hb. simpl. by apply list_lookup_alter_ne.
  - rewrite (loadModel_join _ _ _ _ _ _ _ G Hst Hp). split; [done|].
    intros b Hb. simpl. by apply list_lookup_alter_ne.
  - rewrite (loadModel_starts _ _ _ _ now inline G Hs). cbv zeta.
    rewrite ensureCacheSpace_under_capacity by done. split; [done|].
    intros b Hb. simpl. by rewrite !list_lookup_alter_ne.
Qed.

Lemma load_under_capacity_touches_one_entry_witness :
  let s := unloadModel "y" xy_loaded in
  let s1 := loadModel 9 "y" None s in
  Z.of_nat (length (modelCache s)) ≤ maxCacheSize s ∧
  (getModelStatus s "y" = IDLE ∧ getModelStatus s1 "y" = LOADING) ∧
  getModelStatus s "x" = LOADED ∧
  modelCache s1 = modelCache s ∧
  objects s1 !! 0%nat = objects s !! 0%nat.
Proof.
  intros s s1.
  assert (H : Z.of_nat (length (modelCache s)) ≤ maxCacheSize s)
    by (vm_compute; discriminate).
  destruct (load_under_capacity_touches_one_entry s "y" 1
              {| model := JsNull; status := IDLE; lastUsed := 2;
                 loadPromise := None; config := cfg "y" 1 |} 9 None)
    as [Hm Ho]; [vm_compute; reflexivity | exact H |].
  split; [exact H|]. split; [split; vm_compute; reflexivity|].
  split; [vm_compute; reflexivity|]. split; [exact Hm|].
  apply Ho. discriminate.
Defined.

(** ** The eviction pass *)

(** X6. [ensureCacheSpace] removes no name from the map and changes no
    entry that is not [LOADED]; so when the map holds more names than
    [maxCacheSize] before the pass it still does after it, and when it does
    not, the pass changes nothing. *)
Theorem eviction_keeps_registrations s :
  let s' := ensureCacheSpace s in
  modelCache s' = modelCache s ∧
  (Z.of_nat (length (modelCache s')) > maxCacheSize s' ↔
   Z.of_nat (length (modelCache s)) > maxCacheSize s) ∧
  (∀ n a e, get_entry s n = Some (a, e) → status e ≠ LOADED →
            get_entry s' n = Some (a, e)) ∧
  (Z.of_nat (length (modelCache s)) ≤ maxCacheSize s → s' = s).
Proof.
  intros s'. pose proof (ensureCacheSpace_unloads s) as Hu. fold s' in Hu.
  pose proof (unloads_modelCache _ _ Hu) as Hm.
  pose proof (unloads_maxCacheSize _ _ Hu) as Hk.
  split; [done|]. split; [by rewrite Hm, Hk|]. split.
  - intros n a e [Hn Ha]%get_entry_Some Hst. apply get_entry_Some.
    rewrite Hm. split; [done|]. by eapply unloads_keeps.
  - apply ensureCacheSpace_under_capacity.
Qed.

Lemma eviction_keeps_registrations_witness :
  let s := update_entry 0 (with_status ERROR) (registerModel 3 (cfg "c" 2) xy_loaded) in
  Z.of_nat (length (modelCache s)) > maxCacheSize s ∧
  getModelStatus (ensureCacheSpace s) "x" = ERROR ∧
  getModelStatus (ensureCacheSpace s) "y" = IDLE ∧
  Z.of_nat (length (modelCache (ensureCacheSpace s))) > maxCacheSize (ensureCacheSpace s).
Proof.
  intros s. destruct (eviction_keeps_registrations s) as (_ & Hover & Hkeep & _).
  assert (H : Z.of_nat (length (modelCache s)) > maxCacheSize s)
    by (vm_compute; reflexivity).
  split; [exact H|]. split; [|split; [vm_compute; reflexivity | by apply Hover]].
  unfold getModelStatus.
  rewrite (Hkeep "x" 0%nat {| model := JsObject 1; status := ERROR; lastUsed := 1;
                               loadPromise := None; config := cfg "x" 0 |});
    [done | vm_compute; reflexivity | discriminate].
Defined.

(** ** Late registration and configurations without a load function *)

Lemma loadModel_registers_first s n c now :
  Map_get (modelCache s) n = None →
  loadModel now n (Some c) s = loadModel now n (Some c) (registerModel now c s) ∨
  Map_get (modelCache (registerModel now c s)) n = None.
Proof.
  intros Hn. destruct (Map_get (modelCache (registerModel now c s)) n) eqn:E; [|by right].
  left. unfold loadModel at 1 2. unfold Map_has. by rewrite Hn, E.
Qed.

Lemma fresh_entry_starts now c :
  starts_load {| model := JsNull; status := IDLE; lastUsed := now;
                 loadPromise := None; config := c |}.
Proof. by apply idle_starts_load. Qed.

(** X7. [loadModel(name, config)] for an unregistered name, with a
    configuration of that name, registers it and starts the load in the same
    call: the load function of the configuration is invoked once, and when
    its promise is fulfilled the entry is [LOADED] with the resource and the
    call resolves with it. *)
Theorem late_registration_loads s n c f now v :
  Map_get (modelCache s) n = None → cfg_name c = n → cfg_loadModel c = Some f →
  microtasks s = [] →
  let s1 := drain (loadModel now n (Some c) s) in
  let s2 := drain (settle (length (promises s)) (Fulfilled v) s1) in
  getModelStatus s1 n = LOADING ∧
  invocations f s1 = S (invocations f s) ∧
  get_entry s2 n =
    Some (length (objects s),
          {| model := v; status := LOADED; lastUsed := now;
             loadPromise := None; config := c |}) ∧
  call_result s2 (length (calls s)) = Some (Fulfilled v).
Proof.
  intros Hn Hc Hf Hq s1 s2. subst n.
  destruct (registerModel_fresh_entry now c s Hn) as (G & _ & _ & Hp & Hca & Hmi).
  set (r := registerModel now c s) in *.
  assert (Hl : loadModel now (cfg_name c) (Some c) s = loadModel now (cfg_name c) (Some c) r).
  { destruct (loadModel_registers_first s (cfg_name c) c now Hn) as [H|H]; [exact H|].
    apply get_entry_Some in G as [G _]. fold r in H. congruence. }
  rewrite Hq in Hmi.
  destruct (load_then_drain r (cfg_name c) _ _ now (Some c) f G (fresh_entry_starts now c) Hmi Hf)
    as (Hm1 & Ha1 & Hp1 & Hc1 & Hq1).
  rewrite <- Hl in Hm1, Ha1, Hp1, Hc1, Hq1. fold s1 in Hm1, Ha1, Hp1, Hc1, Hq1.
  rewrite Hp, Hca in *.
  assert (Hc1' : calls s1 !! length (calls s)
                 = Some (AwaitLoad (length (objects s)) (cfg_name c) (length (promises s))))
    by (by rewrite Hc1, list_lookup_middle).
  assert (Hp1' : promises s1 !! length (promises s)
                 = Some {| made_by := f; settled := None; waiters := [length (calls s)] |})
    by (by rewrite Hp1, list_lookup_middle).
  destruct (settle_then_drain s1 _ _ _ _ f _ (Fulfilled v) Hc1' Hp1' Ha1 Hq1)
    as (Hm2 & Ha2 & _ & _ & Hc2 & _).
  fold s2 in Hm2, Ha2, Hc2.
  assert (Hmap : Map_get (modelCache r) (cfg_name c) = Some (length (objects s)))
    by (by apply get_entry_Some in G as [? _]).
  split; [|split; [|split]].
  - unfold getModelStatus.
    assert (G1 : get_entry s1 (cfg_name c) = Some (length (objects s),
              with_loadPromise (Some (length (promises s)))
                (with_status LOADING (with_lastUsed now
                   {| model := JsNull; status := IDLE; lastUsed := now;
                      loadPromise := None; config := c |}))))
      by (apply get_entry_Some; by rewrite Hm1).
    by rewrite G1.
  - rewrite (invocations_snoc f s s1 _ Hp1). simpl. by rewrite decide_True.
  - apply get_entry_Some. rewrite Hm2, Hm1. done.
  - unfold call_result. rewrite Hc2.
    rewrite list_lookup_insert_eq by (by eapply lookup_lt_Some). done.
Qed.

Lemma late_registration_loads_witness :
  let s := new_AIModelLoader no_options in
  let s1 := drain (loadModel 1 "m" (Some (cfg "m" 4)) s) in
  let s2 := drain (settle 0 (Fulfilled (JsObject 1)) s1) in
  getModelStatus s "m" = IDLE ∧
  getModelStatus s1 "m" = LOADING ∧
  invocations 4 s1 = 1%nat ∧
  getModelStatus s2 "m" = LOADED ∧
  call_result s2 0%nat = Some (Fulfilled (JsObject 1)).
Proof.
  intros s s1 s2.
  destruct (late_registration_loads s "m" (cfg "m" 4) 4 1 (JsObject 1))
    as (H1 & H2 & H3 & H4); try reflexivity.
  split; [reflexivity|]. split; [exact H1|]. split; [exact H2|].
  split; [|exact H4].
  exact (f_equal (λ o, match o with Some (_, e) => status e | None => IDLE end) H3).
Defined.

(** X8. [loadModel(name, config)] for an unregistered name with the
    configuration of another name registers that other name and rejects the
    call as not registered: [name] stays unregistered, no load function is
    invoked and nothing is scheduled. *)
Theorem inline_config_of_another_name s n c now :
  Map_get (modelCache s) n = None → cfg_name c ≠ n →
  let s' := loadModel now n (Some c) s in
  s' = push_call (Settled (Rejected (NotRegistered n))) (registerModel now c s) ∧
  call_result s' (length (calls s)) = Some (Rejected (NotRegistered n)) ∧
  Map_get (modelCache s') n = None ∧
  Map_has (modelCache s') (cfg_name c) = true.
Proof.
  intros Hn Hc s'.
  assert (Hr : Map_get (modelCache (registerModel now c s)) n = None).
  { destruct (Map_get (modelCache s) (cfg_name c)) as [a|] eqn:E.
    - unfold registerModel, Map_has. by rewrite E.
    - by apply (registerModel_fresh_entry now c s E). }
  assert (Hs' : s' = push_call (Settled (Rejected (NotRegistered n))) (registerModel now c s)).
  { subst s'. unfold loadModel, Map_has. rewrite Hn. unfold get_entry. by rewrite Hr. }
  split; [exact Hs'|]. rewrite Hs'. split; [|split].
  - unfold call_result. simpl.
    assert (Hca : calls (registerModel now c s) = calls s).
    { unfold registerModel. by destruct (Map_has _ _). }
    rewrite Hca. by rewrite list_lookup_middle.
  - exact Hr.
  - apply registerModel_registered.
Qed.

Lemma inline_config_of_another_name_witness :
  let s' := loadModel 1 "a" (Some (cfg "b" 0)) (new_AIModelLoader no_options) in
  call_result s' 0%nat = Some (Rejected (NotRegistered "a")) ∧
  Map_get (modelCache s') "a" = None ∧
  Map_has (modelCache s') "b" = true.
Proof.
  intros s'.
  destruct (inline_config_of_another_name (new_AIModelLoader no_options) "a" (cfg "b" 0) 1)
    as (_ & H1 & H2 & H3); [reflexivity | discriminate |].
  split; [exact H1|]. split; [exact H2 | exact H3].
Defined.

(** X9. When the configuration used by a starting load has no load
    function (the inline one if given, even if the stored one has a
    function), the call is rejected with the no-valid-load-function error
    and the entry is left [ERROR] with [loadPromise] null; no load function
    is invoked. *)
Theorem missing_load_function_fails s n a e now inline :
  get_entry s n = Some (a, e) → starts_load e → microtasks s = [] →
  cfg_loadModel (match inline with Some c => c | None => config e end) = None →
  let s1 := drain (loadModel now n inline s) in
  get_entry s1 n =
    Some (a, {| model := model e; status := ERROR; lastUsed := now;
                loadPromise := None; config := config e |}) ∧
  call_result s1 (length (calls s)) = Some (Rejected (NoValidLoadFunction n)) ∧
  promises s1 = promises s ∧
  microtasks s1 = [].
Proof.
  intros G Hst Hq Hf s1. subst s1.
  rewrite (loadModel_starts _ _ _ _ _ _ G Hst). cbv zeta.
  destruct (started_entry _ _ _ _ now G) as [Hu Ha].
  pose proof (unloads_modelCache _ _ Hu) as Hmc.
  pose proof (unloads_promises _ _ Hu) as Hpr.
  pose proof (unloads_calls _ _ Hu) as Hca.
  pose proof (unloads_microtasks _ _ Hu) as Hmi.
  revert Hu Ha Hmc Hpr Hca Hmi. generalize (ensureCacheSpace
    (update_entry a (with_status LOADING) (update_entry a (with_lastUsed now) s))).
  intros s3 Hu Ha Hmc Hpr Hca Hmi. simpl in Hmc, Hpr, Hca, Hmi.
  unfold drain. simpl. rewrite Hmi, Hq. simpl.
  unfold resume. simpl. rewrite Hca. rewrite list_lookup_middle by done.
  unfold after_space. simpl. rewrite Ha. cbn [config with_status with_lastUsed].
  rewrite Hf. unfold load_failed. simpl.
  split; [|split; [|done]].
  - apply get_entry_Some. simpl. rewrite Hmc. split.
    + by apply get_entry_Some in G as [? _].
    + by rewrite list_lookup_alter_eq, Ha.
  - unfold call_result. simpl.
    rewrite Hca, insert_last. by rewrite list_lookup_middle.
Qed.

Lemma missing_load_function_fails_witness :
  let broken := {| cfg_name := "a"; cfg_loadModel := None |} in
  let s1 := drain (loadModel 1 "a" (Some broken) a_registered) in
  getModelStatus s1 "a" = ERROR ∧
  call_result s1 0%nat = Some (Rejected (NoValidLoadFunction "a")) ∧
  invocations 0 s1 = 0%nat.
Proof.
  intros broken s1.
  destruct (missing_load_function_fails a_registered "a" 0
              {| model := JsNull; status := IDLE; lastUsed := 0;
                 loadPromise := None; config := cfg "a" 0 |} 1 (Some broken))
    as (G & R & P & _); try reflexivity.
  - by apply idle_starts_load.
  - split; [|split; [exact R|]].
    + exact (f_equal (λ o, match o with Some (_, e) => status e | None => IDLE end) G).
    + unfold invocations. fold s1 in P. by rewrite P.
Defined.

(** ** Preloading *)

(** X10. [preloadModel] does nothing for a registered name that is not
    [IDLE]: it retries no [ERROR] entry and restarts no load.  For an [IDLE]
    name a second [preloadModel] in the same synchronous run does nothing
    more than the first, and the load function is invoked once. *)
Theorem preload_starts_idle_entries_once s n a e f now1 now2 :
  get_entry s n = Some (a, e) → microtasks s = [] →
  cfg_loadModel (config e) = Some f →
  (status e ≠ IDLE → preloadModel now1 n s = s) ∧
  (status e = IDLE →
   preloadModel now2 n (preloadModel now1 n s) = preloadModel now1 n s ∧
   invocations f (drain (preloadModel now2 n (preloadModel now1 n s)))
   = S (invocations f s)).
Proof.
  intros G Hq Hf. split.
  - intros Hst. unfold preloadModel. rewrite G. by rewrite bool_decide_eq_false_2.
  - intros Hst.
    assert (Hs : starts_load e) by (apply idle_starts_load; congruence).
    assert (H1 : preloadModel now1 n s = loadModel now1 n None s).
    { unfold preloadModel. rewrite G. by rewrite bool_decide_eq_true_2. }
    destruct (loadModel_starts_state s n a e now1 None G Hs) as (G1 & _).
    assert (H2 : preloadModel now2 n (preloadModel now1 n s) = preloadModel now1 n s).
    { rewrite H1. unfold preloadModel. rewrite G1. by rewrite bool_decide_eq_false_2. }
    split; [exact H2|]. rewrite H2, H1.
    destruct (load_then_drain s n a e now1 None f G Hs Hq Hf) as (_ & _ & Hp & _).
    rewrite (invocations_snoc f s _ _ Hp). simpl. by rewrite decide_True.
Qed.

Lemma preload_starts_idle_entries_once_witness :
  preloadModel 2 "a" (preloadModel 1 "a" a_registered) = preloadModel 1 "a" a_registered ∧
  invocations 0 (drain (preloadModel 2 "a" (preloadModel 1 "a" a_registered))) = 1%nat.
Proof.
  destruct (preload_starts_idle_entries_once a_registered "a" 0
              {| model := JsNull; status := IDLE; lastUsed := 0;
                 loadPromise := None; config := cfg "a" 0 |} 0 1 2)
    as [_ H]; try reflexivity.
  exact (H eq_refl).
Defined.

(** X11. A model preloaded to the end is served from the cache: when the
    promise of the preload is fulfilled with a truthy resource the entry is
    [LOADED], and a later [loadModel] resolves with that resource without
    another invocation of the load function. *)
Theorem preloaded_model_is_served_from_cache s n a e f now1 now2 v inline :
  get_entry s n = Some (a, e) → status e = IDLE → microtasks s = [] →
  cfg_loadModel (config e) = Some f → truthy v = true →
  let s1 := drain (preloadModel now1 n s) in
  let s2 := drain (settle (length (promises s)) (Fulfilled v) s1) in
  let s3 := loadModel now2 n inline s2 in
  getModelStatus s2 n = LOADED ∧
  call_result s3 (length (calls s2)) = Some (Fulfilled v) ∧
  promises s3 = promises s2 ∧
  invocations f s3 = S (invocations f s).
Proof.
  intros G Hst Hq Hf Hv s1 s2 s3.
  assert (Hs : starts_load e) by (apply idle_starts_load; congruence).
  assert (H1 : preloadModel now1 n s = loadModel now1 n None s).
  { unfold preloadModel. rewrite G. by rewrite bool_decide_eq_true_2. }
  destruct (load_then_drain s n a e now1 None f G Hs Hq Hf) as (Hm1 & Ha1 & Hp1 & Hc1 & Hq1).
  rewrite <- H1 in Hm1, Ha1, Hp1, Hc1, Hq1. fold s1 in Hm1, Ha1, Hp1, Hc1, Hq1.
  assert (Hc1' : calls s1 !! length (calls s) = Some (AwaitLoad a n (length (promises s))))
    by (by rewrite Hc1, list_lookup_middle).
  assert (Hp1' : promises s1 !! length (promises s)
                 = Some {| made_by := f; settled := None; waiters := [length (calls s)] |})
    by (by rewrite Hp1, list_lookup_middle).
  destruct (settle_then_drain s1 _ _ _ _ f _ (Fulfilled v) Hc1' Hp1' Ha1 Hq1)
    as (Hm2 & Ha2 & _ & Hp2 & _ & _).
  fold s2 in Hm2, Ha2, Hp2. simpl in Ha2.
  assert (G2 : get_entry s2 n = Some (a,
     with_loadPromise None (with_status LOADED (with_model v
       (with_loadPromise (Some (length (promises s)))
          (with_status LOADING (with_lastUsed now1 e))))))).
  { apply get_entry_Some. rewrite Hm2, Hm1. split; [|done].
    by apply get_entry_Some in G as [? _]. }
  assert (H3 : s3 = push_call (Settled (Fulfilled v))
                      (update_entry a (with_lastUsed now2) s2)).
  { unfold s3. by rewrite (loadModel_hit _ _ _ _ now2 inline G2). }
  split; [unfold getModelStatus; by rewrite G2|].
  rewrite H3. split; [|split; [done|]].
  - unfold call_result. simpl. by rewrite list_lookup_middle.
  - unfold invocations. simpl. rewrite Hp2, Hp1.
    replace (length (promises s)) with (length (promises s) + 0)%nat at 1 by lia.
    rewrite insert_app_r. simpl. rewrite filter_app, length_app.
    rewrite filter_cons, filter_nil. simpl. rewrite decide_True by done. simpl. lia.
Qed.

Lemma preloaded_model_is_served_from_cache_witness :
  let s1 := drain (preloadModel 1 "a" a_registered) in
  let s2 := drain (settle 0 (Fulfilled (JsObject 5)) s1) in
  let s3 := loadModel 2 "a" None s2 in
  getModelStatus s2 "a" = LOADED ∧
  call_result s3 1%nat = Some (Fulfilled (JsObject 5)) ∧
  invocations 0 s3 = 1%nat.
Proof.
  intros s1 s2 s3.
  destruct (preloaded_model_is_served_from_cache a_registered "a" 0
              {| model := JsNull; status := IDLE; lastUsed := 0;
                 loadPromise := None; config := cfg "a" 0 |} 0 1 2 (JsObject 5) None)
    as (H1 & H2 & _ & H4); try reflexivity.
  split; [exact H1|]. split; [exact H2 | exact H4].
Defined.

(** ** The adapter's unload *)

(** X12. [unloadTfjsModel] on a [LOADED] entry with a truthy resource: the
    load call it makes first is a cache hit, which stamps [lastUsed] and
    invokes nothing, and the entry ends [IDLE] without its resource. *)
Theorem unloadTfjsModel_of_loaded s n a e now :
  get_entry s n = Some (a, e) → status e = LOADED → truthy (model e) = true →
  let s' := unloadTfjsModel now n s in
  get_entry s' n =
    Some (a, {| model := JsNull; status := IDLE; lastUsed := now;
                loadPromise := loadPromise e; config := config e |}) ∧
  call_result s' (length (calls s)) = Some (Fulfilled (model e)) ∧
  promises s' = promises s ∧ microtasks s' = microtasks s.
Proof.
  intros G Hst Ht s'. unfold s', unloadTfjsModel.
  rewrite (loadModel_hit _ _ _ _ now None G Hst Ht).
  assert (G1 : get_entry (push_call (Settled (Fulfilled (model e)))
                 (update_entry a (with_lastUsed now) s)) n = Some (a, with_lastUsed now e)).
  { change (get_entry (update_entry a (with_lastUsed now) s) n = Some (a, with_lastUsed now e)).
    by apply get_entry_update. }
  pose proof (unloadModel_entry _ _ _ _ G1) as G2.
  rewrite decide_True in G2 by done.
  pose proof (unloadModel_unloads n (push_call (Settled (Fulfilled (model e)))
                 (update_entry a (with_lastUsed now) s))) as Hu.
  split; [exact G2|]. split; [|split].
  - unfold call_result. rewrite (unloads_calls _ _ Hu). simpl.
    by rewrite list_lookup_middle.
  - by rewrite (unloads_promises _ _ Hu).
  - by rewrite (unloads_microtasks _ _ Hu).
Qed.

Lemma unloadTfjsModel_of_loaded_witness :
  getModelStatus xy_loaded "x" = LOADED ∧
  getModelStatus (unloadTfjsModel 9 "x" xy_loaded) "x" = IDLE ∧
  call_result (unloadTfjsModel 9 "x" xy_loaded) 2%nat = Some (Fulfilled (JsObject 1)).
Proof.
  destruct (unloadTfjsModel_of_loaded xy_loaded "x" 0
              {| model := JsObject 1; status := LOADED; lastUsed := 1;
                 loadPromise := None; config := cfg "x" 0 |} 9)
    as (G & R & _); try (vm_compute; reflexivity).
  split; [vm_compute; reflexivity|]. split; [|exact R].
  exact (f_equal (λ o, match o with Some (_, e) => status e | None => IDLE end) G).
Defined.

(** X13. [unloadTfjsModel] on a registered entry that is not loaded starts
    a load: the entry becomes [LOADING], the [unloadModel] that follows
    does nothing, the load function is invoked, and when its promise is
    fulfilled the model is [LOADED]. *)
Theorem unloadTfjsModel_of_idle_loads s n a e f now v :
  get_entry s n = Some (a, e) → starts_load e → microtasks s = [] →
  cfg_loadModel (config e) = Some f →
  let s1 := drain (unloadTfjsModel now n s) in
  let s2 := drain (settle (length (promises s)) (Fulfilled v) s1) in
  unloadTfjsModel now n s = loadModel now n None s ∧
  getModelStatus (unloadTfjsModel now n s) n = LOADING ∧
  invocations f s1 = S (invocations f s) ∧
  get_entry s2 n =
    Some (a, {| model := v; status := LOADED; lastUsed := now;
                loadPromise := None; config := config e |}).
Proof.
  intros G Hs Hq Hf s1 s2.
  destruct (loadModel_starts_state s n a e now None G Hs) as (G1 & _).
  assert (H : unloadTfjsModel now n s = loadModel now n None s).
  { unfold unloadTfjsModel, unloadModel. rewrite G1.
    by rewrite bool_decide_eq_false_2. }
  destruct (load_then_drain s n a e now None f G Hs Hq Hf) as (Hm1 & Ha1 & Hp1 & Hc1 & Hq1).
  rewrite <- H in Hm1, Ha1, Hp1, Hc1, Hq1. fold s1 in Hm1, Ha1, Hp1, Hc1, Hq1.
  assert (Hc1' : calls s1 !! length (calls s) = Some (AwaitLoad a n (length (promises s))))
    by (by rewrite Hc1, list_lookup_middle).
  assert (Hp1' : promises s1 !! length (promises s)
                 = Some {| made_by := f; settled := None; waiters := [length (calls s)] |})
    by (by rewrite Hp1, list_lookup_middle).
  destruct (settle_then_drain s1 _ _ _ _ f _ (Fulfilled v) Hc1' Hp1' Ha1 Hq1)
    as (Hm2 & Ha2 & _).
  fold s2 in Hm2, Ha2. simpl in Ha2.
  split; [exact H|]. split; [|split].
  - rewrite H. unfold getModelStatus. by rewrite G1.
  - rewrite (invocations_snoc f s s1 _ Hp1). simpl. by rewrite decide_True.
  - apply get_entry_Some. rewrite Hm2, Hm1. split; [|done].
    by apply get_entry_Some in G as [? _].
Qed.

Lemma unloadTfjsModel_of_idle_loads_witness :
  let s1 := drain (unloadTfjsModel 1 "a" a_registered) in
  let s2 := drain (settle 0 (Fulfilled (JsObject 1)) s1) in
  getModelStatus a_registered "a" = IDLE ∧
  invocations 0 s1 = 1%nat ∧
  getModelStatus s2 "a" = LOADED.
Proof.
  intros s1 s2.
  destruct (unloadTfjsModel_of_idle_loads a_registered "a" 0
              {| model := JsNull; status := IDLE; lastUsed := 0;
                 loadPromise := None; config := cfg "a" 0 |} 0 1 (JsObject 1))
    as (_ & _ & H3 & H4); try reflexivity.
  - by apply idle_starts_load.
  - split; [reflexivity|]. split; [exact H3|].
    exact (f_equal (λ o, match o with Some (_, e) => status e | None => IDLE end) H4).
Defined.

(** ** What stays registered *)

Lemma keeps_configs_refl s : keeps_configs s s.
Proof. intros a e H. by exists e. Qed.

Lemma keeps_configs_trans s1 s2 s3 :
  keeps_configs s1 s2 → keeps_configs s2 s3 → keeps_configs s1 s3.
Proof.
  intros H1 H2 a e Ha. destruct (H1 a e Ha) as (e' & Ha' & Hc').
  destruct (H2 a e' Ha') as (e'' & Ha'' & Hc''). exists e''. split; [done|congruence].
Qed.

Lemma keeps_configs_same s s' : objects s' = objects s → keeps_configs s s'.
Proof. intros H a e Ha. exists e. by rewrite H. Qed.

Lemma keeps_configs_update a f s :
  (∀ e, config (f e) = config e) → keeps_configs s (update_entry a f s).
Proof.
  intros Hf b e Hb. simpl. destruct (decide (a = b)) as [->|Hne].
  - exists (f e). by rewrite list_lookup_alter_eq, Hb.
  - exists e. by rewrite list_lookup_alter_ne.
Qed.

Lemma keeps_configs_unloads s s' : unloads s s' → keeps_configs s s'.
Proof.
  intros [_ O] a e Ha. destruct (O a) as [H|(e0 & He0 & _ & H)].
  - exists e. by rewrite H.
  - rewrite Ha in He0. injection He0 as <-. by exists (unloaded e).
Qed.

Lemma keeps_configs_registerModel now c s : keeps_configs s (registerModel now c s).
Proof.
  unfold registerModel. destruct (Map_has _ _); [apply keeps_configs_refl|].
  intros a e Ha. exists e. simpl. split; [|done]. by apply lookup_app_l_Some.
Qed.

Create HintDb keeps discriminated.
#[local] Hint Resolve keeps_configs_refl keeps_configs_update keeps_configs_unloads
  keeps_configs_registerModel unloadModel_unloads ensureCacheSpace_unloads
  cleanup_loop_unloads dispose_loop_unloads : keeps.

Lemma keeps_configs_loadModel_registered now n inline s :
  keeps_configs
    match inline with
    | Some c => if Map_has (modelCache s) n then s else registerModel now c s
    | None => s
    end
    (loadModel now n inline s).
Proof.
  unfold loadModel. generalize (match inline with
    | Some c => if Map_has (modelCache s) n then s else registerModel now c s
    | None => s
    end). intros s1.
  destruct (get_entry s1 n) as [[a e]|]; [|by apply keeps_configs_same].
  assert (H2 : keeps_configs s1 (update_entry a (with_lastUsed now) s1))
    by auto with keeps.
  assert (H3 : keeps_configs s1
            (ensureCacheSpace (update_entry a (with_status LOADING)
               (update_entry a (with_lastUsed now) s1)))).
  { eapply keeps_configs_trans; [exact H2|].
    eapply keeps_configs_trans; [|apply keeps_configs_unloads; auto with keeps].
    auto with keeps. }
  assert (Hpush : ∀ c x y, keeps_configs x y → keeps_configs x (push_call c y)).
  { intros c x y H. eapply keeps_configs_trans; [exact H|]. by apply keeps_configs_same. }
  assert (Hstart : keeps_configs s1
    (let s3 := ensureCacheSpace (update_entry a (with_status LOADING)
                 (update_entry a (with_lastUsed now) s1)) in
     with_microtasks (microtasks s3 ++ [length (calls s3)])
       (push_call (AwaitSpace a n inline) s3))).
  { cbv zeta. eapply keeps_configs_trans; [exact H3|]. by apply keeps_configs_same. }
  cbv zeta in Hstart. simpl.
  destruct (_ && _); [by apply Hpush|].
  destruct (status e); try exact Hstart.
  destruct (loadPromise e); [by apply Hpush | exact Hstart].
Qed.

Lemma keeps_configs_loadModel now n inline s : keeps_configs s (loadModel now n inline s).
Proof.
  eapply keeps_configs_trans; [|apply keeps_configs_loadModel_registered].
  destruct inline; [|auto with keeps]. destruct (Map_has _ _); auto with keeps.
Qed.

Lemma keeps_configs_alter s s' a f :
  objects s' = alter f a (objects s) → (∀ e, config (f e) = config e) →
  keeps_configs s s'.
Proof.
  intros Ho Hf. eapply keeps_configs_trans; [by apply (keeps_configs_update a f)|].
  by apply keeps_configs_same.
Qed.

Lemma keeps_configs_resume cid s : keeps_configs s (resume cid s).
Proof.
  unfold resume. destruct (calls s !! cid) as [[a n i|a n p|p|o]|];
    try apply keeps_configs_refl.
  - unfold after_space. destruct (objects s !! a); [|apply keeps_configs_refl].
    destruct (cfg_loadModel _); by eapply keeps_configs_alter.
  - destruct (promises s !! p) as [[f [o|] ws]|]; try apply keeps_configs_refl.
    destruct o; by eapply keeps_configs_alter.
Qed.

Lemma keeps_configs_drain s : keeps_configs s (drain s).
Proof.
  unfold drain.
  assert (H : keeps_configs s (with_microtasks [] s)) by by apply keeps_configs_same.
  revert H. generalize (with_microtasks [] s).
  induction (microtasks s) as [|cid q IH]; intros s0 H; simpl; [done|].
  apply IH. eapply keeps_configs_trans; [exact H|apply keeps_configs_resume].
Qed.

Lemma keeps_configs_step s ev : keeps_configs s (step s ev).
Proof.
  destruct ev; simpl.
  - unfold initialize. destruct (isInitialized s);
      [apply keeps_configs_refl | by apply keeps_configs_same].
  - auto with keeps.
  - apply keeps_configs_loadModel.
  - unfold preloadModel. destruct (get_entry s modelName) as [[a e]|];
      [|apply keeps_configs_refl].
    case_bool_decide; [apply keeps_configs_loadModel | apply keeps_configs_refl].
  - auto with keeps.
  - unfold cleanupExpiredModels. auto with keeps.
  - unfold dispose. eapply keeps_configs_trans;
      [apply keeps_configs_unloads, dispose_loop_unloads | by apply keeps_configs_same].
  - unfold settle. destruct (promises s !! p) as [[f [o'|] ws]|];
      try apply keeps_configs_refl. by apply keeps_configs_same.
  - apply keeps_configs_drain.
Qed.

Lemma registerModel_Map_get now c s n a :
  Map_get (modelCache s) n = Some a →
  Map_get (modelCache (registerModel now c s)) n = Some a.
Proof.
  intros H. unfold registerModel, Map_has.
  destruct (Map_get (modelCache s) (cfg_name c)) eqn:E; [done|].
  simpl. rewrite Map_set_fresh by done. by rewrite Map_get_app, H.
Qed.

Lemma step_Map_get s ev n a :
  is_dispose ev = false → Map_get (modelCache s) n = Some a →
  Map_get (modelCache (step s ev)) n = Some a.
Proof.
  intros Hev H.
  assert (Hload : ∀ now m inline, Map_get (modelCache (loadModel now m inline s)) n = Some a).
  { intros now m inline. rewrite loadModel_modelCache. destruct inline; [|done].
    destruct (Map_has _ _); [done|]. by apply registerModel_Map_get. }
  destruct ev; simpl; try done.
  - unfold initialize. by destruct (isInitialized s).
  - by apply registerModel_Map_get.
  - unfold preloadModel. destruct (get_entry s modelName) as [[? ?]|]; [|done].
    by case_bool_decide.
  - by rewrite (unloads_modelCache _ _ (unloadModel_unloads _ _)).
  - unfold cleanupExpiredModels.
    by rewrite (unloads_modelCache _ _ (cleanup_loop_unloads _ _ _)).
  - by rewrite settle_modelCache.
  - by rewrite drain_modelCache.
Qed.

(** X14. Nothing but [dispose] removes a registration or changes a stored
    configuration: through any run without [dispose], whatever is loaded,
    unloaded, evicted, swept, settled or registered, a registered name stays
    bound to the same entry object, and that object keeps the configuration
    it was registered with. *)
Theorem registrations_persist s evs n a e :
  get_entry s n = Some (a, e) →
  forallb (λ ev, negb (is_dispose ev)) evs = true →
  ∃ e', get_entry (run s evs) n = Some (a, e') ∧ config e' = config e.
Proof.
  revert s e. induction evs as [|ev evs IH]; intros s e G Hevs; simpl.
  - by exists e.
  - apply andb_prop in Hevs as [Hev%negb_true_iff Hevs].
    apply get_entry_Some in G as [Hm Ha].
    destruct (keeps_configs_step s ev a e Ha) as (e1 & Ha1 & Hc1).
    destruct (IH (step s ev) e1) as (e' & G' & Hc'); [|done|].
    + apply get_entry_Some. split; [by apply step_Map_get | done].
    + exists e'. split; [exact G' | congruence].
Qed.

Lemma registrations_persist_witness :
  ∃ e', get_entry
          (run xy_loaded
             [ELoad 3 "z" (Some (cfg "z" 2)); EDrain; EUnload "x"; ECleanup 9000000;
              ERegister 4 (cfg "x" 9); ESettle 2 (Rejected (Thrown JsNull)); EDrain])
          "x" = Some (0%nat, e') ∧
        config e' = cfg "x" 0.
Proof.
  apply (registrations_persist xy_loaded _ "x" 0
           {| model := JsObject 1; status := LOADED; lastUsed := 1;
              loadPromise := None; config := cfg "x" 0 |});
    vm_compute; reflexivity.
Defined.

(** ** Reachable states *)

Lemma entries_named_keeps s s' :
  entries_named s → keeps_configs s s' → modelCache s' = modelCache s →
  entries_named s'.
Proof.
  intros Hn Hk Hm n a Hin. rewrite Hm in Hin.
  destruct (Hn n a Hin) as (e & Ha & Hc). destruct (Hk a e Ha) as (e' & Ha' & Hc').
  exists e'. split; [done|congruence].
Qed.

Lemma entries_named_registerModel now c s :
  entries_named s → entries_named (registerModel now c s).
Proof.
  intros Hn. unfold registerModel, Map_has.
  destruct (Map_get (modelCache s) (cfg_name c)) eqn:E; [done|].
  intros n a. simpl. rewrite Map_set_fresh by done.
  rewrite elem_of_app, list_elem_of_singleton. intros [Hin|[= -> ->]].
  - destruct (Hn n a Hin) as (e & Ha & Hc). exists e. split; [|done].
    by apply lookup_app_l_Some.
  - eexists. split; [by apply list_lookup_middle | done].
Qed.

Lemma entries_named_loadModel now n inline s :
  entries_named s → entries_named (loadModel now n inline s).
Proof.
  intros Hn.
  set (s1 := match inline with
             | Some c => if Map_has (modelCache s) n then s else registerModel now c s
             | None => s
             end).
  assert (H1 : entries_named s1).
  { subst s1. destruct inline; [|done]. destruct (Map_has _ _); [done|].
    by apply entries_named_registerModel. }
  assert (Hm : modelCache (loadModel now n inline s) = modelCache s1)
    by apply loadModel_modelCache.
  intros m a Hin. rewrite Hm in Hin. destruct (H1 m a Hin) as (e & Ha & Hc).
  pose proof (keeps_configs_loadModel_registered now n inline s) as Hk. fold s1 in Hk.
  destruct (Hk a e Ha) as (e' & Ha' & Hc'). exists e'. split; [done|congruence].
Qed.

Lemma entries_named_step s ev : entries_named s → entries_named (step s ev).
Proof.
  intros Hn. destruct ev; simpl.
  - eapply entries_named_keeps; [exact Hn | apply (keeps_configs_step s EInitialize) |].
    simpl. unfold initialize. by destruct (isInitialized s).
  - by apply entries_named_registerModel.
  - by apply entries_named_loadModel.
  - unfold preloadModel. destruct (get_entry s modelName) as [[a e]|]; [|done].
    case_bool_decide; [by apply entries_named_loadModel | done].
  - eapply entries_named_keeps; [exact Hn | apply (keeps_configs_step s (EUnload modelName)) |].
    by rewrite (unloads_modelCache _ _ (unloadModel_unloads _ _)).
  - eapply entries_named_keeps; [exact Hn | apply (keeps_configs_step s (ECleanup now)) |].
    unfold cleanupExpiredModels.
    by rewrite (unloads_modelCache _ _ (cleanup_loop_unloads _ _ _)).
  - intros n a Hin. simpl in Hin. by apply elem_of_nil in Hin.
  - eapply entries_named_keeps; [exact Hn | apply (keeps_configs_step s (ESettle p o)) |].
    apply settle_modelCache.
  - eapply entries_named_keeps; [exact Hn | apply (keeps_configs_step s EDrain) |].
    apply drain_modelCache.
Qed.

(** X15. In every state the loader can reach, a name is bound at most once;
    every registered name has an entry object, which holds the configuration
    of that very name; and two different names never share an entry
    object. *)
Theorem reachable_map_is_sound s :
  reachable s →
  NoDup (modelCache s).*1 ∧
  (∀ n a, Map_get (modelCache s) n = Some a →
          ∃ e, get_entry s n = Some (a, e) ∧ cfg_name (config e) = n) ∧
  (∀ n m a, Map_get (modelCache s) n = Some a → Map_get (modelCache s) m = Some a →
            n = m).
Proof.
  intros Hr.
  assert (Hn : entries_named s).
  { destruct Hr as (options & evs & ->). unfold run.
    assert (H : entries_named (new_AIModelLoader options)).
    { intros n a Hin. simpl in Hin. by apply elem_of_nil in Hin. }
    revert H. generalize (new_AIModelLoader options).
    induction evs as [|ev evs IH]; intros s0 H; simpl; [done|].
    apply IH. by apply entries_named_step. }
  assert (Hget : ∀ n a, Map_get (modelCache s) n = Some a →
            ∃ e, get_entry s n = Some (a, e) ∧ cfg_name (config e) = n).
  { intros n a Hm. destruct (Hn n a (Map_get_elem_of _ _ _ Hm)) as (e & Ha & Hc).
    exists e. split; [by apply get_entry_Some | done]. }
  split; [by apply reachable_keys|]. split; [exact Hget|].
  intros n m a Hn' Hm'.
  destruct (Hget n a Hn') as (e1 & [_ H1]%get_entry_Some & <-).
  destruct (Hget m a Hm') as (e2 & [_ H2]%get_entry_Some & <-).
  congruence.
Qed.

Lemma reachable_map_is_sound_witness :
  ∃ e, get_entry xy_loaded "y" = Some (1%nat, e) ∧ cfg_name (config e) = "y".
Proof.
  destruct (reachable_map_is_sound xy_loaded) as (_ & H & _).
  - exists (capacity 2),
      [ELoad 1 "x" (Some (cfg "x" 0)); EDrain; ESettle 0 (Fulfilled (JsObject 1)); EDrain;
       ELoad 2 "y" (Some (cfg "y" 1)); EDrain; ESettle 1 (Fulfilled (JsObject 2)); EDrain].
    vm_compute. reflexivity.
  - apply H. vm_compute. reflexivity.
Defined.

(** ** More on the sweep *)

Lemma cleanup_objects now s :
  NoDup (modelCache s).*1 →
  ∀ b, objects (cleanupExpiredModels now s) !! b =
       if decide (b ∈ (modelCache s).*2) then expire now (cacheTtl s) <$> objects s !! b
       else objects s !! b.
Proof.
  intros Hnd. unfold cleanupExpiredModels. apply cleanup_loop_spec.
  intros k a. by apply Map_get_NoDup.
Qed.

Lemma cleanup_modelCache now s :
  modelCache (cleanupExpiredModels now s) = modelCache s.
Proof. apply (unloads_modelCache _ _ (cleanup_loop_unloads _ _ _)). Qed.

(** X16. A second sweep at the same time changes nothing: after
    [cleanupExpiredModels()] no registered entry is left that the same sweep
    would unload. *)
Theorem sweep_is_idempotent now s :
  NoDup (modelCache s).*1 →
  cleanupExpiredModels now (cleanupExpiredModels now s) = cleanupExpiredModels now s.
Proof.
  intros Hnd.
  pose proof (cleanup_loop_unloads now (modelCache s) s) as Hu.
  fold (cleanupExpiredModels now s) in Hu.
  pose proof (cleanup_objects now s Hnd) as Ho.
  pose proof (unloads_modelCache _ _ Hu) as Hm.
  pose proof (unloads_cacheTtl _ _ Hu) as Ht.
  revert Hu Ho Hm Ht. generalize (cleanupExpiredModels now s). intros s' Hu Ho Hm Ht.
  pose proof (cleanup_loop_unloads now (modelCache s') s') as Hu'.
  fold (cleanupExpiredModels now s') in Hu'.
  assert (Hnd' : NoDup (modelCache s').*1) by by rewrite Hm.
  pose proof (cleanup_objects now s' Hnd') as Ho'.
  rewrite (unloads_rest _ _ Hu').
  assert (Heq : objects (cleanupExpiredModels now s') = objects s').
  { apply list_eq. intros b. rewrite Ho', Hm, Ht, Ho.
    destruct (decide _); [|done].
    destruct (objects s !! b); simpl; [|done]. by rewrite expire_idemp. }
  rewrite Heq. by destruct s'.
Qed.

Lemma sweep_is_idempotent_witness :
  getModelStatus (cleanupExpiredModels 100 ab_loaded) "a" = IDLE ∧
  cleanupExpiredModels 100 (cleanupExpiredModels 100 ab_loaded)
  = cleanupExpiredModels 100 ab_loaded.
Proof.
  split; [vm_compute; reflexivity|].
  apply sweep_is_idempotent. apply reachable_keys.
  exists {| opt_maxCacheSize := None; opt_cacheTtl := Some (Num 60) |},
    [ELoad 1 "a" (Some (cfg "a" 0)); EDrain; ESettle 0 (Fulfilled (JsObject 1)); EDrain;
     ELoad 50 "b" (Some (cfg "b" 1)); EDrain; ESettle 1 (Fulfilled (JsObject 2)); EDrain].
  vm_compute. reflexivity.
Defined.

(** X17. Using a model keeps it alive: after a [loadModel] served from the
    cache at time [now], a sweep at a time no more than the time to live
    later leaves the entry [LOADED] with its resource. *)
Theorem recently_used_model_survives_sweep s n a e now now' inline :
  NoDup (modelCache s).*1 →
  get_entry s n = Some (a, e) → status e = LOADED → truthy (model e) = true →
  now' - now ≤ cacheTtl s →
  get_entry (cleanupExpiredModels now' (loadModel now n inline s)) n
  = Some (a, with_lastUsed now e).
Proof.
  intros Hnd G Hst Ht Hfresh. rewrite (loadModel_hit _ _ _ _ now inline G Hst Ht).
  set (s1 := push_call _ _).
  assert (G1 : get_entry s1 n = Some (a, with_lastUsed now e)).
  { change (get_entry (update_entry a (with_lastUsed now) s) n = Some (a, with_lastUsed now e)).
    by apply get_entry_update. }
  pose proof G1 as [Hm Ha]%get_entry_Some.
  apply get_entry_Some.
  rewrite cleanup_modelCache. split; [done|].
  rewrite (cleanup_objects now' s1 Hnd), Ha. simpl.
  assert (Hne : ¬ expired now' (cacheTtl s) (with_lastUsed now e)).
  { intros [_ Hold]. simpl in Hold. lia. }
  unfold expire. change (cacheTtl s1) with (cacheTtl s). rewrite (decide_False (P := expired _ _ _)) by done.
  by destruct (decide _).
Qed.

Lemma recently_used_model_survives_sweep_witness :
  getModelStatus (cleanupExpiredModels 100 ab_loaded) "a" = IDLE ∧
  getModelStatus (cleanupExpiredModels 100 (loadModel 45 "a" None ab_loaded)) "a" = LOADED.
Proof.
  split; [vm_compute; reflexivity|].
  assert (H : get_entry (cleanupExpiredModels 100 (loadModel 45 "a" None ab_loaded)) "a"
              = Some (0%nat, with_lastUsed 45
                  {| model := JsObject 1; status := LOADED; lastUsed := 1;
                     loadPromise := None; config := cfg "a" 0 |})).
  { apply recently_used_model_survives_sweep; try (vm_compute; reflexivity).
    - apply reachable_keys.
      exists {| opt_maxCacheSize := None; opt_cacheTtl := Some (Num 60) |},
        [ELoad 1 "a" (Some (cfg "a" 0)); EDrain; ESettle 0 (Fulfilled (JsObject 1)); EDrain;
         ELoad 50 "b" (Some (cfg "b" 1)); EDrain; ESettle 1 (Fulfilled (JsObject 2)); EDrain].
      vm_compute. reflexivity.
    - vm_compute. discriminate. }
  unfold getModelStatus. by rewrite H.
Defined.

(** ** [dispose] while a load is in flight *)

Lemma unloads_length s s' : unloads s s' → length (objects s') = length (objects s).
Proof.
  intros [_ O].
  assert (H : ∀ b, is_Some (objects s' !! b) ↔ is_Some (objects s !! b)).
  { intros b. destruct (O b) as [->|(e & He & _ & He')]; [done|].
    rewrite He, He'. split; eauto. }
  apply Nat.le_antisymm; apply Nat.nlt_ge; intros Hlt.
  - apply lookup_lt_is_Some_2, H, lookup_lt_is_Some_1 in Hlt. lia.
  - apply lookup_lt_is_Some_2, H, lookup_lt_is_Some_1 in Hlt. lia.
Qed.

(** X18. A load in flight when [dispose()] is called finishes on the entry
    object it started with, which is no longer in the map: if the name is
    registered again before the promise is fulfilled, the waiting call
    still resolves with the resource, but the new entry stays [IDLE]
    without it. *)
Theorem load_in_flight_misses_new_registration s cid a n p f e c now v :
  calls s !! cid = Some (AwaitLoad a n p) →
  promises s !! p = Some {| made_by := f; settled := None; waiters := [cid] |} →
  objects s !! a = Some e → microtasks s = [] → cfg_name c = n →
  let s1 := registerModel now c (dispose s) in
  let s2 := drain (settle p (Fulfilled v) s1) in
  call_result s2 cid = Some (Fulfilled v) ∧
  get_entry s2 n =
    Some (length (objects s),
          {| model := JsNull; status := IDLE; lastUsed := now;
             loadPromise := None; config := c |}) ∧
  (∀ h, invocations h s2 = invocations h s).
Proof.
  intros Hc Hp Ha Hq Hn s1 s2. subst n.
  pose proof (dispose_loop_unloads (modelCache s) s) as Hu.
  assert (Hd : Map_get (modelCache (dispose s)) (cfg_name c) = None) by reflexivity.
  destruct (registerModel_fresh_entry now c (dispose s) Hd)
    as (G & _ & _ & Hpr & Hca & Hmi).
  fold s1 in G, Hpr, Hca, Hmi.
  assert (Hlen : length (objects (dispose s)) = length (objects s))
    by (simpl; by apply unloads_length).
  rewrite Hlen in G.
  assert (Hpr1 : promises s1 = promises s)
    by (rewrite Hpr; simpl; by rewrite (unloads_promises _ _ Hu)).
  assert (Hca1 : calls s1 = calls s)
    by (rewrite Hca; simpl; by rewrite (unloads_calls _ _ Hu)).
  assert (Hmi1 : microtasks s1 = [])
    by (rewrite Hmi; simpl; by rewrite (unloads_microtasks _ _ Hu)).
  assert (Ha1 : ∃ e1, objects s1 !! a = Some e1).
  { destruct (keeps_configs_unloads _ _ Hu a e Ha) as (e0 & He0 & _).
    destruct (keeps_configs_registerModel now c (dispose s) a e0 He0) as (e1 & He1 & _).
    by exists e1. }
  destruct Ha1 as [e1 Ha1].
  rewrite <- Hca1 in Hc. rewrite <- Hpr1 in Hp.
  destruct (settle_then_drain s1 cid a _ p f e1 (Fulfilled v) Hc Hp Ha1 Hmi1)
    as (Hm2 & _ & Hother & Hp2 & Hc2 & _).
  fold s2 in Hm2, Hother, Hp2, Hc2.
  pose proof G as [Gm Ga]%get_entry_Some.
  split; [|split].
  - unfold call_result. rewrite Hc2.
    rewrite list_lookup_insert_eq by (by eapply lookup_lt_Some). done.
  - apply get_entry_Some. rewrite Hm2. split; [done|].
    rewrite Hother; [done|]. apply lookup_lt_Some in Ha. lia.
  - intros h. unfold invocations. rewrite Hp2, Hpr1. rewrite Hpr1 in Hp.
    clear -Hp. revert p Hp. generalize (promises s).
    induction l as [|x l IH]; intros [|q]; simpl; try done.
    + intros [= ->]. rewrite !filter_cons. simpl. by destruct (decide _).
    + intros Hl. rewrite !filter_cons. destruct (decide _); simpl; by rewrite IH.
Qed.

Lemma load_in_flight_misses_new_registration_witness :
  let s := drain (loadModel 1 "a" None a_registered) in
  let s1 := registerModel 2 (cfg "a" 3) (dispose s) in
  let s2 := drain (settle 0 (Fulfilled (JsObject 1)) s1) in
  getModelStatus s "a" = LOADING ∧
  call_result s2 0%nat = Some (Fulfilled (JsObject 1)) ∧
  getModelStatus s2 "a" = IDLE.
Proof.
  intros s s1 s2.
  destruct (load_in_flight_misses_new_registration s 0 0 "a" 0 0
              {| model := JsNull; status := LOADING; lastUsed := 1;
                 loadPromise := Some 0%nat; config := cfg "a" 0 |}
              (cfg "a" 3) 2 (JsObject 1))
    as (R & G & _); try reflexivity.
  split; [reflexivity|]. split; [exact R|].
  exact (f_equal (λ o, match o with Some (_, e) => status e | None => IDLE end) G).
Defined.

(** ** [initialize] *)

Section initialized.

Variable b : bool.

Lemma unloadModel_init n s :
  unloadModel n (with_isInitialized b s) = with_isInitialized b (unloadModel n s).
Proof.
  unfold unloadModel, get_entry. simpl.
  destruct (Map_get _ _) as [a|]; [|done].
  destruct (objects s !! a) as [e|]; [|done]. by case_bool_decide.
Qed.

Lemma evict_loop_init l s :
  evict_loop l (with_isInitialized b s) = with_isInitialized b (evict_loop l s).
Proof.
  revert s. induction l as [|[k e] l IH]; intros s; simpl; [done|].
  destruct (_ >? _); [|done]. rewrite unloadModel_init. apply IH.
Qed.

Lemma ensureCacheSpace_init s :
  ensureCacheSpace (with_isInitialized b s) = with_isInitialized b (ensureCacheSpace s).
Proof.
  unfold ensureCacheSpace. simpl. destruct (_ <=? _); [done|].
  change (cache_entries (with_isInitialized b s)) with (cache_entries s).
  apply evict_loop_init.
Qed.

Lemma cleanup_loop_init now l s :
  cleanup_loop now l (with_isInitialized b s)
  = with_isInitialized b (cleanup_loop now l s).
Proof.
  revert s. induction l as [|[k a] l IH]; intros s; simpl; [done|].
  destruct (objects s !! a) as [e|]; [|apply IH].
  destruct (_ && _); [|apply IH]. rewrite unloadModel_init. apply IH.
Qed.

Lemma dispose_loop_init l s :
  dispose_loop l (with_isInitialized b s) = with_isInitialized b (dispose_loop l s).
Proof.
  revert s. induction l as [|[k a] l IH]; intros s; simpl; [done|].
  rewrite unloadModel_init. apply IH.
Qed.

Lemma registerModel_init now c s :
  registerModel now c (with_isInitialized b s)
  = with_isInitialized b (registerModel now c s).
Proof. unfold registerModel. simpl. by destruct (Map_has _ _). Qed.

Lemma loadModel_init now n inline s :
  loadModel now n inline (with_isInitialized b s)
  = with_isInitialized b (loadModel now n inline s).
Proof.
  unfold loadModel. simpl.
  set (s1 := match inline with Some _ => _ | None => _ end).
  set (s1' := match inline with Some _ => _ | None => _ end).
  assert (Hs1 : s1 = with_isInitialized b s1').
  { subst s1 s1'. destruct inline as [c|]; [|done].
    destruct (Map_has _ _); [done|]. apply registerModel_init. }
  rewrite Hs1. clearbody s1'. clear s1 Hs1.
  change (get_entry (with_isInitialized b s1') n) with (get_entry s1' n).
  destruct (get_entry s1' n) as [[a e]|]; [|done]. simpl.
  destruct (_ && _); [done|].
  change (update_entry a (with_status LOADING)
            (update_entry a (with_lastUsed now) (with_isInitialized b s1')))
    with (with_isInitialized b (update_entry a (with_status LOADING)
                                  (update_entry a (with_lastUsed now) s1'))).
  rewrite ensureCacheSpace_init.
  destruct (status e); try done; destruct (loadPromise e); done.
Qed.

Lemma resume_init cid s :
  resume cid (with_isInitialized b s) = with_isInitialized b (resume cid s).
Proof.
  unfold resume. simpl. destruct (calls s !! cid) as [[a n i|a n p|p|o]|]; try done.
  - unfold after_space. simpl. destruct (objects s !! a); [|done].
    by destruct (cfg_loadModel _).
  - destruct (promises s !! p) as [[f [o|] ws]|]; try done. by destruct o.
Qed.

Lemma drain_init s : drain (with_isInitialized b s) = with_isInitialized b (drain s).
Proof.
  unfold drain. simpl.
  change (with_microtasks [] (with_isInitialized b s))
    with (with_isInitialized b (with_microtasks [] s)).
  generalize (with_microtasks [] s). induction (microtasks s) as [|cid q IH];
    intros s0; simpl; [done|].
  rewrite resume_init. apply IH.
Qed.

(** Whatever the flag is, a step does the same to the rest of the state. *)
Lemma step_init ev s :
  ∃ b', step (with_isInitialized b s) ev = with_isInitialized b' (step s ev).
Proof.
  destruct ev; simpl.
  - unfold initialize. simpl. destruct b, (isInitialized s); by eexists.
  - exists b. apply registerModel_init.
  - exists b. apply loadModel_init.
  - exists b. unfold preloadModel.
    change (get_entry (with_isInitialized b s) modelName) with (get_entry s modelName).
    destruct (get_entry s modelName) as [[a e]|]; [|done].
    case_bool_decide; [apply loadModel_init | done].
  - exists b. apply unloadModel_init.
  - exists b. unfold cleanupExpiredModels. apply cleanup_loop_init.
  - exists false. unfold dispose. simpl. by rewrite dispose_loop_init.
  - exists b. unfold settle. simpl. by destruct (promises s !! p) as [[f [o'|] ws]|].
  - exists b. apply drain_init.
Qed.

End initialized.

Lemma run_init b evs s :
  ∃ b', run (with_isInitialized b s) evs = with_isInitialized b' (run s evs).
Proof.
  revert b s. induction evs as [|ev evs IH]; intros b s; simpl.
  - by exists b.
  - destruct (step_init b ev s) as [b1 ->]. apply IH.
Qed.

(** X19. No operation of the loader depends on [initialize()] having been
    called: a run that starts with it ends in the state of the same run
    without it, up to the flag [isInitialized]; in particular every status
    and every call result is the same. *)
Theorem initialize_changes_only_the_flag s evs :
  (∃ b, run s (EInitialize :: evs) = with_isInitialized b (run s evs)) ∧
  (∀ n, getModelStatus (run s (EInitialize :: evs)) n = getModelStatus (run s evs) n) ∧
  (∀ cid, call_result (run s (EInitialize :: evs)) cid = call_result (run s evs) cid).
Proof.
  assert (H : ∃ b, run s (EInitialize :: evs) = with_isInitialized b (run s evs)).
  { change (run s (EInitialize :: evs)) with (run (initialize s) evs).
    assert (Hi : ∃ b0, initialize s = with_isInitialized b0 s).
    { unfold initialize. destruct (isInitialized s) eqn:E; [|by exists true].
      exists true. destruct s. simpl in E. by subst. }
    destruct Hi as [b0 ->]. apply run_init. }
  split; [exact H|]. destruct H as [b ->]. done.
Qed.

(** ** Joining, and loading over capacity *)

Lemma invocations_settle h (l : list JsPromise) q pr pr' :
  l !! q = Some pr → made_by pr' = made_by pr →
  length (filter (λ x, made_by x = h) (<[q := pr']> l))
  = length (filter (λ x, made_by x = h) l).
Proof.
  revert q. induction l as [|x l IH]; intros [|q]; simpl; try done.
  - intros [= ->] Heq. rewrite !filter_cons, Heq. by destruct (decide _).
  - intros Hl Heq. rewrite !filter_cons. destruct (decide _); simpl; by rewrite IH.
Qed.

(** X20. A call that arrives while the entry is [LOADING] with its promise
    stored joins the load in flight: it invokes no load function, and when
    the promise settles, the call that started the load and the call that
    joined settle with the same outcome. *)
Theorem joined_call_shares_the_outcome s n a e cid p f now inline o :
  get_entry s n = Some (a, e) → status e = LOADING → loadPromise e = Some p →
  calls s !! cid = Some (AwaitLoad a n p) →
  promises s !! p = Some {| made_by := f; settled := None; waiters := [cid] |} →
  microtasks s = [] →
  let s1 := loadModel now n inline s in
  let s2 := drain (settle p o s1) in
  promises s1 = promises s ∧ microtasks s1 = [] ∧
  call_result s2 cid = Some o ∧
  call_result s2 (length (calls s)) = Some o ∧
  (∀ h, invocations h s2 = invocations h s).
Proof.
  intros G Hst Hlp Hc Hp Hq s1 s2.
  assert (H1 : s1 = push_call (Joined p) (update_entry a (with_lastUsed now) s))
    by apply (loadModel_join _ _ _ _ _ _ _ G Hst Hlp).
  assert (Hc1 : calls s1 !! cid = Some (AwaitLoad a n p)).
  { rewrite H1. simpl. by apply lookup_app_l_Some. }
  assert (Hp1 : promises s1 !! p = Some {| made_by := f; settled := None; waiters := [cid] |})
    by (by rewrite H1).
  assert (Ha1 : objects s1 !! a = Some (with_lastUsed now e)).
  { rewrite H1. simpl. apply get_entry_Some in G as [_ Ha].
    by rewrite list_lookup_alter_eq, Ha. }
  assert (Hq1 : microtasks s1 = []) by (by rewrite H1).
  destruct (settle_then_drain s1 cid a n p f _ o Hc1 Hp1 Ha1 Hq1)
    as (_ & _ & _ & Hp2 & Hc2 & _).
  fold s2 in Hp2, Hc2.
  assert (Hne : cid ≠ length (calls s)).
  { apply lookup_lt_Some in Hc. lia. }
  split; [by rewrite H1|]. split; [exact Hq1|]. split; [|split].
  - unfold call_result. rewrite Hc2.
    rewrite list_lookup_insert_eq by (by eapply lookup_lt_Some). done.
  - unfold call_result. rewrite Hc2, list_lookup_insert_ne by done.
    rewrite H1 at 1. simpl. rewrite list_lookup_middle by done.
    rewrite Hp2. rewrite list_lookup_insert_eq by (by eapply lookup_lt_Some). done.
  - intros h. unfold invocations. rewrite Hp2.
    rewrite (invocations_settle h _ _ _ _ Hp1) by done. by rewrite H1.
Qed.

Lemma joined_call_shares_the_outcome_witness :
  let s := drain (loadModel 1 "a" None a_registered) in
  let s2 := drain (settle 0 (Fulfilled (JsObject 1)) (loadModel 2 "a" None s)) in
  call_result s2 0%nat = Some (Fulfilled (JsObject 1)) ∧
  call_result s2 1%nat = Some (Fulfilled (JsObject 1)) ∧
  invocations 0 s2 = 1%nat.
Proof.
  intros s s2.
  destruct (joined_call_shares_the_outcome s "a" 0
              {| model := JsNull; status := LOADING; lastUsed := 1;
                 loadPromise := Some 0%nat; config := cfg "a" 0 |}
              0 0 0 2 None (Fulfilled (JsObject 1)))
    as (_ & _ & R1 & R2 & I); try reflexivity.
  split; [exact R1|]. split; [exact R2 | exact (I 0%nat)].
Defined.

(** X21. A load that starts while the map holds more names than
    [maxCacheSize] unloads every other [LOADED] entry before the load
    function is invoked, whatever their [lastUsed]. *)
Theorem load_over_capacity_unloads_all_others s n a e m b em now inline :
  get_entry s n = Some (a, e) → starts_load e →
  Z.of_nat (length (modelCache s)) > maxCacheSize s →
  get_entry s m = Some (b, em) → status em = LOADED → b ≠ a →
  let s1 := loadModel now n inline s in
  get_entry s1 m = Some (b, unloaded em) ∧ promises s1 = promises s.
Proof.
  intros G Hs Hover Gm Hst Hne s1. subst s1.
  rewrite (loadModel_starts _ _ _ _ now inline G Hs). cbv zeta.
  set (u := update_entry a (with_status LOADING) (update_entry a (with_lastUsed now) s)).
  assert (Gu : get_entry u m = Some (b, em)).
  { apply get_entry_Some in Gm as [Hm Hb]. apply get_entry_Some. split; [done|].
    subst u. simpl. by rewrite !list_lookup_alter_ne. }
  assert (Hu : Z.of_nat (length (modelCache u)) > maxCacheSize u) by done.
  pose proof (ensureCacheSpace_over_capacity u m b em Hu Gu Hst) as Ge.
  split; [exact Ge|].
  simpl. by rewrite (unloads_promises _ _ (ensureCacheSpace_unloads u)).
Qed.

Lemma load_over_capacity_unloads_all_others_witness :
  let s := registerModel 3 (cfg "z" 2) xy_loaded in
  getModelStatus s "y" = LOADED ∧
  getModelStatus (loadModel 4 "z" None s) "y" = IDLE.
Proof.
  intros s. split; [vm_compute; reflexivity|].
  destruct (load_over_capacity_unloads_all_others s "z" 2
              {| model := JsNull; status := IDLE; lastUsed := 3;
                 loadPromise := None; config := cfg "z" 2 |}
              "y" 1
              {| model := JsObject 2; status := LOADED; lastUsed := 2;
                 loadPromise := None; config := cfg "y" 1 |} 4 None)
    as [G _];
    [ vm_compute; reflexivity | by apply idle_starts_load | vm_compute; reflexivity
    | vm_compute; reflexivity | reflexivity | discriminate | ].
  exact (f_equal (λ o, match o with Some (_, e) => status e | None => IDLE end) G).
Defined.

(** X22. [preloadModel] followed by [loadModel] for the same [IDLE] name in
    one synchronous run invokes the load function twice: the load call does
    not join the preload, whose promise is not stored yet. *)
Theorem load_right_after_preload_invokes_again s n a e f now1 now2 :
  get_entry s n = Some (a, e) → status e = IDLE → loadPromise e = None →
  microtasks s = [] → cfg_loadModel (config e) = Some f →
  invocations f (drain (loadModel now2 n None (preloadModel now1 n s)))
  = S (S (invocations f s)).
Proof.
  intros G Hst Hlp Hq Hf.
  assert (H1 : preloadModel now1 n s = loadModel now1 n None s).
  { unfold preloadModel. rewrite G. by rewrite bool_decide_eq_true_2. }
  rewrite H1.
  apply (overlapping_loads_each_invoke s n a e f now1 now2); try done.
  apply idle_starts_load; congruence.
Qed.

Lemma load_right_after_preload_invokes_again_witness :
  invocations 0 (drain (loadModel 2 "a" None (preloadModel 1 "a" a_registered))) = 2%nat.
Proof.
  apply (load_right_after_preload_invokes_again a_registered "a" 0
           {| model := JsNull; status := IDLE; lastUsed := 0;
              loadPromise := None; config := cfg "a" 0 |} 0 1 2);
    reflexivity.
Defined.

(** ** The inline configuration of a registered name *)



